(** * Fractal: row partitioning, Newton iteration and root assignment

    A shallow embedding of [fractal.hpp] and [newton.cpp].

    - C++ [int] is a 32-bit two's-complement integer, modelled as [Z] with
      the wrap-around written out ([wrap_int]); integer division traps on a
      zero divisor and on [INT_MIN / -1], so it returns an [option].
    - [double] and [std::complex<double>] are kept abstract: the functions
      are written over two types [D] and [C] and the operators the source
      applies to them.  Everything that is proved about control flow holds
      for every implementation of those operators.  [Binary64] instantiates
      them with IEEE 754 binary64 numbers for concrete runs.
    - The caller-owned two-dimensional output buffers ([double **],
      [int **]) are finite maps from [(row, column)] to the stored value.
    - Streams ([std::cout], [std::cerr]) are modelled only where a property
      needs them: [newton_root] records the diagnostic it prints; progress
      and timing lines are left out. *)

From Stdlib Require Import ZArith List Lia Bool Floats Ring.
From stdpp Require Import gmap list strings.

Local Open Scope Z_scope.

(** ** 32-bit [int] *)

Definition INT_MAX : Z := 2147483647.
Definition INT_MIN : Z := -2147483648.

Definition wrap_int (z : Z) : Z := (z + 2 ^ 31) mod 2 ^ 32 - 2 ^ 31.

Definition int_range (z : Z) : Prop := INT_MIN <= z <= INT_MAX.

Definition int_add (a b : Z) : Z := wrap_int (a + b).
Definition int_sub (a b : Z) : Z := wrap_int (a - b).
Definition int_mul (a b : Z) : Z := wrap_int (a * b).

(** [a / b] on [int]: truncation toward zero; no result when the divisor is
    zero or the quotient is not representable. *)
Definition int_div (a b : Z) : option Z :=
  if (b =? 0) || ((a =? INT_MIN) && (b =? -1)) then None else Some (a ÷ b).

(** ** Counted loops

    [for (int i = lo; i < hi; ++i) s = body(i, s);] -- the body neither
    assigns [i] nor leaves the loop early.  The loop runs [hi - lo] times
    when [lo < hi] and not at all otherwise; [i] never exceeds [hi], so the
    increment cannot overflow. *)

Fixpoint for_loop {T : Type} (n : nat) (i : Z) (body : Z -> T -> T) (s : T) : T :=
  match n with
  | O => s
  | S n' => for_loop n' (i + 1) body (body i s)
  end.

Definition for_range {T : Type} (lo hi : Z) (body : Z -> T -> T) (s : T) : T :=
  for_loop (Z.to_nat (hi - lo)) lo body s.

(** [for (int i = hi; i >= 0; --i) s = body(i, s);] *)

Fixpoint for_down_loop {T : Type} (n : nat) (i : Z) (body : Z -> T -> T) (s : T) : T :=
  match n with
  | O => s
  | S n' => for_down_loop n' (i - 1) body (body i s)
  end.

Definition for_down {T : Type} (hi : Z) (body : Z -> T -> T) (s : T) : T :=
  for_down_loop (Z.to_nat (hi + 1)) hi body s.

(** ** fractal.hpp: [iteration_limits]

    The output iterator is the list of values written through it, in
    order. *)

Definition iteration_limits (num_threads yresolution : Z) : option (list Z) :=
  match int_div yresolution num_threads with
  | None => None
  | Some span =>
      let out := for_range 0 num_threads (fun itr out => out ++ [int_mul span itr]) [] in
      Some (out ++ [yresolution])
  end.

(** The half-open interval between two consecutive boundaries. *)
Definition interval_at (out : list Z) (i : nat) (a b : Z) : Prop :=
  out !! i = Some a /\ out !! S i = Some b.

(** ** fractal.hpp: [argmin]

    [std::min_element] is the standard library's: it keeps the first
    position [smallest] and moves it to a later position only when
    [comp] holds of the element there and the element at [smallest]; on
    an empty range it returns [last].  Iterators are positions counted
    from [first], so the difference
    [std::min_element(first,last,comp)-first] is the position itself. *)

Fixpoint min_element_loop {A : Type} (comp : A -> A -> bool) (rest : list A)
    (first smallest : nat) (smallest_val : A) : nat :=
  match rest with
  | [] => smallest
  | a :: rest' =>
      if comp a smallest_val
      then min_element_loop comp rest' (S first) first a
      else min_element_loop comp rest' (S first) smallest smallest_val
  end.

Definition min_element {A : Type} (comp : A -> A -> bool) (range : list A) : nat :=
  match range with
  | [] => 0%nat
  | a :: rest => min_element_loop comp rest 1 0 a
  end.

Definition argmin {A : Type} (range : list A) (comp : A -> A -> bool) : nat :=
  min_element comp range.

(** What [argmin] needs of [comp] on the elements of a range to single out
    least elements: [comp] is asymmetric, and an element below another is
    below, or the other is above, any third one (a strict weak order). *)
Definition strict_weak_on {A : Type} (comp : A -> A -> bool) (l : list A) : bool :=
  forallb (fun x =>
    forallb (fun y =>
      implb (comp x y) (negb (comp y x)) &&
      forallb (fun z => implb (comp x y) (comp x z || comp z y)) l) l) l.

(** ** fractal.hpp: [zip]

    Both ranges have the iterator type [InputIt], hence the same element
    type, and [static_cast<scalar>] leaves their elements as they are.  The
    ranges are the lists of their elements; the result is the list of the
    values written through [out], in order.  [zipped] is the constructor
    of the output container's value type. *)

Fixpoint zip {A Zipped : Type} (zipped : A -> A -> Zipped) (range1 range2 : list A)
    : list Zipped :=
  match range1, range2 with
  | a :: range1', b :: range2' => zipped a b :: zip zipped range1' range2'
  | _, _ => []
  end.

(** ** newton.cpp and the sampling pipeline, over abstract arithmetic *)

Section Model.

Context {D C : Type}.

(** [double]: the literals [0.], [2.] and [1e-6], infinity, the conversion
    from [int], and the operators the source uses ([d_eq], the comparison
    [==], is used by the root assignment only). *)
Variables (d_0 d_2 d_tol d_inf : D).
Variable d_of_int : Z -> D.
Variables (d_add d_sub d_mul d_div : D -> D -> D).
Variable d_lt : D -> D -> bool.
Variable d_eq : D -> D -> bool.

(** [std::complex<double>]: the constructor, [real()], [imag()], the
    operators between two complex numbers, [complex + double], [abs] and
    [==]. *)
Variable complex : D -> D -> C.
Variables (c_real c_imag : C -> D).
Variables (c_add c_sub c_mul c_div : C -> C -> C).
Variable c_add_d : C -> D -> C.
Variable c_abs : C -> D.
Variable c_eq : C -> C -> bool.

(** A [double const *] is the memory it points to, read at an offset. *)
Definition array := Z -> D.

(** *** [polynomial_and_deriv] *)

Definition polynomial_and_deriv (x : C) (coeffs : array) (degree : Z) : C * C :=
  for_down (int_sub degree 1)
    (fun itr '(p, p_prime) =>
       let p_prime := c_add (c_mul x p_prime) p in
       let p := c_add_d (c_mul x p) (coeffs itr) in
       (p, p_prime))
    (complex (coeffs degree) d_0, complex d_0 d_0).

(** *** [newton_root]

    The result carries the returned point, the value stored through
    [itr_taken], and the starting points reported on [std::cerr]. *)

Record newton_result := NewtonResult {
  root : C;
  itr_taken : Z;
  cerr : list C
}.

Definition c_infinity : C := complex d_inf d_inf.

Fixpoint newton_loop (n : nat) (itr : Z) (coeffs : array) (init x : C)
    (degree : Z) (tol : D) : newton_result :=
  match n with
  | O => NewtonResult c_infinity INT_MAX []
  | S n' =>
      let '(f_x, g_x) := polynomial_and_deriv x coeffs degree in
      if d_lt (c_abs f_x) tol then NewtonResult x itr []
      else if c_eq g_x (complex d_0 d_0) then NewtonResult c_infinity INT_MAX [init]
      else newton_loop n' (itr + 1) coeffs init (c_sub x (c_div f_x g_x)) degree tol
  end.

Definition newton_root (coeffs : array) (x : C) (degree max_itr : Z) (tol : D)
    : newton_result :=
  newton_loop (Z.to_nat max_itr) 0 coeffs x x degree tol.

(** The tests made at a point [x], one Newton step, and the [k]-th
    Newton iterate of [x0]: the vocabulary in which the outcomes of
    [newton_root] are stated. *)
Definition converged (coeffs : array) (degree : Z) (tol : D) (x : C) : bool :=
  d_lt (c_abs (fst (polynomial_and_deriv x coeffs degree))) tol.

Definition zero_derivative (coeffs : array) (degree : Z) (x : C) : bool :=
  c_eq (snd (polynomial_and_deriv x coeffs degree)) (complex d_0 d_0).

Definition newton_step (coeffs : array) (degree : Z) (x : C) : C :=
  let '(f_x, g_x) := polynomial_and_deriv x coeffs degree in
  c_sub x (c_div f_x g_x).

Definition newton_iterate (coeffs : array) (degree : Z) (x0 : C) (k : nat) : C :=
  Nat.iter k (newton_step coeffs degree) x0.

(** *** Output buffers and stores *)

Record buffers := Buffers {
  re : gmap (Z * Z) D;
  im : gmap (Z * Z) D;
  iterations : gmap (Z * Z) Z
}.

Inductive store :=
| StoreIterations (rc : Z * Z) (n : Z)
| StoreRe (rc : Z * Z) (v : D)
| StoreIm (rc : Z * Z) (v : D).

Definition do_store (b : buffers) (w : store) : buffers :=
  match w with
  | StoreIterations rc n => Buffers (re b) (im b) (<[rc := n]> (iterations b))
  | StoreRe rc v => Buffers (<[rc := v]> (re b)) (im b) (iterations b)
  | StoreIm rc v => Buffers (re b) (<[rc := v]> (im b)) (iterations b)
  end.

Definition do_stores (b : buffers) (ws : list store) : buffers :=
  fold_left do_store ws b.

(** A cell is an element of one of the three buffers; [read] gives its
    content, a [double] or an [int]. *)
Inductive buffer_id := InRe | InIm | InIterations.

Definition cell : Type := buffer_id * (Z * Z).

Definition store_cell (w : store) : cell :=
  match w with
  | StoreIterations rc _ => (InIterations, rc)
  | StoreRe rc _ => (InRe, rc)
  | StoreIm rc _ => (InIm, rc)
  end.

Definition store_value (w : store) : D + Z :=
  match w with
  | StoreIterations _ n => inr n
  | StoreRe _ v => inl v
  | StoreIm _ v => inl v
  end.

Definition read (b : buffers) (c : cell) : option (D + Z) :=
  match fst c with
  | InRe => option_map inl (re b !! snd c)
  | InIm => option_map inl (im b !! snd c)
  | InIterations => option_map inr (iterations b !! snd c)
  end.

(** *** [compute_newton_range]

    [total] and [verbose] only feed the progress line on [std::cout] and
    are left out. *)

(** The point sampled at row [itr], column [jtr]. *)
Definition plane_point (startx starty deltax deltay : D) (itr jtr : Z) : C :=
  let imag := d_add starty (d_mul deltay (d_of_int itr)) in
  let real := d_add startx (d_mul deltax (d_of_int jtr)) in
  complex real imag.

(** The body of the inner loop: [newton_root] stores the iteration count
    through [*(iterations+itr)+jtr], then the two parts of the returned
    point are stored. *)
Definition newton_pixel (coeffs : array) (max_itr degree : Z)
    (startx starty deltax deltay : D) (itr jtr : Z) : list store :=
  let r := newton_root coeffs (plane_point startx starty deltax deltay itr jtr)
             degree max_itr d_tol in
  [ StoreIterations (itr, jtr) (itr_taken r);
    StoreRe (itr, jtr) (c_real (root r));
    StoreIm (itr, jtr) (c_imag (root r)) ].

(** What a pixel's stores put in a cell of row [itr], column [jtr]. *)
Definition newton_cell_value (coeffs : array) (max_itr degree : Z)
    (startx starty deltax deltay : D) (c : cell) : D + Z :=
  let r := newton_root coeffs (plane_point startx starty deltax deltay (fst (snd c)) (snd (snd c)))
             degree max_itr d_tol in
  match fst c with
  | InRe => inl (c_real (root r))
  | InIm => inl (c_imag (root r))
  | InIterations => inr (itr_taken r)
  end.

Definition compute_newton_range (b : buffers) (coeffs : array) (max_itr degree : Z)
    (xresolution start_itr end_itr : Z) (startx starty deltax deltay : D) : buffers :=
  for_range start_itr end_itr
    (fun itr b =>
       for_range 0 xresolution
         (fun jtr b =>
            do_stores b (newton_pixel coeffs max_itr degree startx starty deltax deltay itr jtr))
         b)
    b.

(** The stores of one worker, in program order. *)
Definition compute_newton_range_trace (coeffs : array) (max_itr degree : Z)
    (xresolution start_itr end_itr : Z) (startx starty deltax deltay : D) : list store :=
  for_range start_itr end_itr
    (fun itr tr =>
       for_range 0 xresolution
         (fun jtr tr =>
            tr ++ newton_pixel coeffs max_itr degree startx starty deltax deltay itr jtr)
         tr)
    [].

(** The stores of the rows [start_itr + i], [i < rows], each of
    [columns] pixels, row by row. *)
Definition range_stores (coeffs : array) (max_itr degree : Z)
    (startx starty deltax deltay : D) (start_itr : Z) (rows columns : nat) : list store :=
  concat
    (map (fun i =>
            concat
              (map (fun j =>
                      newton_pixel coeffs max_itr degree startx starty deltax deltay
                        (start_itr + Z.of_nat i) (0 + Z.of_nat j))
                 (seq 0 columns)))
       (seq 0 rows)).

(** *** [sample_newton] *)

(** The arguments [start_itr], [end_itr] of the threads pushed by
    [for (int itr=0;itr<increments.size()-1;++itr)]; the other arguments
    are the same for every thread.  The source computes [size()-1] in
    [size_t], which wraps on an empty vector; this is the loop on a
    non-empty one, and [increments] always holds at least [yresolution]. *)
Definition thread_ranges (increments : list Z) : list (Z * Z) :=
  for_range 0 (Z.of_nat (length increments) - 1)
    (fun itr threads =>
       threads ++ [(nth (Z.to_nat itr) increments 0, nth (Z.to_nat (itr + 1)) increments 0)])
    [].

(** The threads run to completion one after the other, in the order in
    which they were created.  [sample_newton_run] below admits every
    interleaving of their stores.  [total] only feeds the lines printed. *)
Definition sample_newton (b : buffers) (coeffs : array)
    (max_itr num_threads degree xresolution yresolution : Z)
    (startx endx starty endy : D) : option (buffers * Z) :=
  let deltax := d_div (d_sub endx startx) (d_of_int xresolution) in
  let deltay := d_div (d_sub endy starty) (d_of_int yresolution) in
  match iteration_limits num_threads yresolution with
  | None => None
  | Some increments =>
      let threads := thread_ranges increments in
      let b' :=
        fold_left
          (fun b '(start_itr, end_itr) =>
             compute_newton_range b coeffs max_itr degree xresolution start_itr end_itr
               startx starty deltax deltay)
          threads b in
      let limit := INT_MAX in
      Some (b', limit)
  end.

(** All ways of merging the threads' store sequences, each kept in its
    own order. *)
Inductive interleaving {A : Type} : list (list A) -> list A -> Prop :=
| interleaving_done traces :
    Forall (fun t => t = []) traces -> interleaving traces []
| interleaving_step before a t after tr :
    interleaving (before ++ t :: after) tr ->
    interleaving (before ++ (a :: t) :: after) (a :: tr).

(** [sample_newton_run ... b out]: a call on buffers [b] can end with
    [out] (the buffers and [*limit]). *)
Definition sample_newton_run (b : buffers) (coeffs : array)
    (max_itr num_threads degree xresolution yresolution : Z)
    (startx endx starty endy : D) (out : buffers * Z) : Prop :=
  let deltax := d_div (d_sub endx startx) (d_of_int xresolution) in
  let deltay := d_div (d_sub endy starty) (d_of_int yresolution) in
  exists increments tr,
    iteration_limits num_threads yresolution = Some increments /\
    interleaving
      (map (fun '(start_itr, end_itr) =>
              compute_newton_range_trace coeffs max_itr degree xresolution start_itr end_itr
                startx starty deltax deltay)
           (thread_ranges increments))
      tr /\
    out = (do_stores b tr, INT_MAX).

(** *** Mandelbrot [iterate] *)

(** Modelled from the spec: [iterate] is declared in fractal.hpp but its
    body is not among the sources.  Following section 4.1, the orbit
    [x <- x*x + c] is followed from the [x] passed in (the caller passes
    zero); the count of steps taken so far is returned as soon as
    [abs(x) > 2], and [max_itr] when that has not happened after
    [max_itr] steps. *)
Fixpoint iterate_loop (n : nat) (itr : Z) (x c : C) (max_itr : Z) : Z :=
  match n with
  | O => max_itr
  | S n' =>
      if d_lt d_2 (c_abs x) then itr
      else iterate_loop n' (itr + 1) (c_add (c_mul x x) c) c max_itr
  end.

Definition iterate (x c : C) (max_itr : Z) : Z :=
  iterate_loop (Z.to_nat max_itr) 0 x c max_itr.

(** The [k]-th point of the orbit of [x0], and the escape test. *)
Definition orbit (c x0 : C) (k : nat) : C :=
  Nat.iter k (fun x => c_add (c_mul x x) c) x0.

Definition escaped (x : C) : bool := d_lt d_2 (c_abs x).

(** *** [assign_roots] *)

(** An element of an input buffer. *)
Definition load (m : gmap (Z * Z) D) (rc : Z * Z) : D := default d_0 (m !! rc).

(** The root list [roots_re[k] + i roots_im[k]], [k < degree]. *)
Definition root_list (roots_re roots_im : array) (degree : Z) : list C :=
  for_range 0 degree (fun k roots => roots ++ [complex (roots_re k) (roots_im k)]) [].

Definition distances (value : C) (roots : list C) : list D :=
  map (fun r => c_abs (c_sub value r)) roots.

(** The value a pixel carries when [newton_root] did not converge: both
    parts are infinity. *)
Definition not_converged (v_re v_im : D) : bool := d_eq v_re d_inf && d_eq v_im d_inf.

(** Modelled from the spec: [assign_roots] is declared in fractal.hpp but
    its body is not among the sources.  Following sections 3 and 4.6, for
    every pixel of the grid: a pixel carrying the non-convergence value
    [(inf, inf)] is given the reserved index [-1] and is not compared with
    the roots; for any other pixel the Euclidean distances from its value
    to the roots are computed and the position of the least one, found by
    [argmin] under [<], is stored in [index].  The spec gives the root list
    the length of the degree and says nothing of an empty list; no root
    can be assigned then, and the model stores the reserved index. *)
Definition assign_roots (index : gmap (Z * Z) Z) (re im : gmap (Z * Z) D)
    (roots_re roots_im : array) (degree xresolution yresolution : Z)
    : gmap (Z * Z) Z :=
  let roots := root_list roots_re roots_im degree in
  for_range 0 yresolution
    (fun itr index =>
       for_range 0 xresolution
         (fun jtr index =>
            let v_re := load re (itr, jtr) in
            let v_im := load im (itr, jtr) in
            let assigned :=
              if not_converged v_re v_im then -1
              else
                match roots with
                | [] => -1
                | _ => Z.of_nat (argmin (distances (complex v_re v_im) roots) d_lt)
                end in
            <[(itr, jtr) := assigned]> index)
         index)
    index.

End Model.

#[local] Instance buffer_id_eq_dec : EqDecision buffer_id.
Proof. solve_decision. Defined.

(** ** linalg.cpp: the companion matrix

    A [double **] matrix is the list of its rows.  A store outside the
    rows allocated, or outside a row, has no defined behaviour: [mat_store]
    gives no result there.  [initialise_companion_matrix] can also throw. *)

Inductive exception :=
| invalid_argument (what : string).

Inductive outcome (A : Type) :=
| Returned (a : A)
| Thrown (e : exception)
| Undefined.

Arguments Returned {A} a.
Arguments Thrown {A} e.
Arguments Undefined {A}.

Section Linalg.

Context {D : Type}.

(** The literals [0.] and [1.]. *)
Variables (d_0 d_1 : D).

(** A matrix of [n] rows of [n] elements. *)
Definition square (n : nat) (mat : list (list D)) : Prop :=
  length mat = n /\ Forall (fun row => length row = n) mat.

(** The element [mat[i][j]], when there is one. *)
Definition mat_load (mat : list (list D)) (i j : Z) : option D :=
  if (i <? 0) || (j <? 0) then None
  else
    match mat !! Z.to_nat i with
    | Some row => row !! Z.to_nat j
    | None => None
    end.

(** The store [mat[i][j] = v]. *)
Definition mat_store (mat : list (list D)) (i j : Z) (v : D) : option (list (list D)) :=
  if (i <? 0) || (j <? 0) then None
  else
    match mat !! Z.to_nat i with
    | Some row =>
        if (Z.to_nat j <? length row)%nat
        then Some (<[Z.to_nat i := <[Z.to_nat j := v]> row]> mat)
        else None
    | None => None
    end.

(** The first loop allocates the row [mat[itr]] of [degree] elements and
    fills it with [0.]; the second, whose condition [itr<degree,jtr<degree-1]
    is the value of [jtr<degree-1], stores [1.] at [mat[itr][jtr]] with
    [itr] running one ahead of [jtr]. *)
Definition initialise_companion_matrix (degree : Z) : outcome (list (list D)) :=
  if degree <? 2
  then Thrown (invalid_argument "`degree` must be greater than or equal to 2")
  else
    let mat := for_range 0 degree (fun itr mat => mat ++ [replicate (Z.to_nat degree) d_0]) [] in
    let '(_, mat) :=
      for_range 0 (int_sub degree 1)
        (fun jtr '(itr, mat) =>
           (int_add itr 1,
            match mat with
            | Some mat => mat_store mat itr jtr d_1
            | None => None
            end))
        (1, Some mat) in
    match mat with
    | Some mat => Returned mat
    | None => Undefined
    end.

(** [for (int itr=0;itr<degree;++itr) mat[itr][degree-1] = coeffs[itr];] *)
Definition assign_companion_matrix (mat : list (list D)) (coeffs : Z -> D) (degree : Z)
    : option (list (list D)) :=
  for_range 0 degree
    (fun itr mat =>
       match mat with
       | Some mat => mat_store mat itr (int_sub degree 1) (coeffs itr)
       | None => None
       end)
    (Some mat).

End Linalg.

(** ** The polynomial and its derivative, as sums of monomials

    The value [sum_i coeffs[i] * x^i] of the polynomial with coefficients
    [coeffs[0..degree]] and the value [sum_i i * coeffs[i] * x^(i-1)] of its
    derivative, in a ring with unit [c_one]. *)

Section PolynomialValue.

Context {D C : Type}.
Variable d_0 : D.
Variable complex : D -> D -> C.
Variable c_one : C.
Variables (c_add c_mul : C -> C -> C).

Definition c_pow (x : C) (n : nat) : C := Nat.iter n (c_mul x) c_one.

(** [n * z] for a natural number [n]. *)
Definition c_scale (n : nat) (z : C) : C := Nat.iter n (c_add z) (complex d_0 d_0).

Definition c_sum (term : nat -> C) (n : nat) : C :=
  fold_right c_add (complex d_0 d_0) (map term (seq 0 n)).

Definition poly_value (coeffs : Z -> D) (degree : Z) (x : C) : C :=
  c_sum (fun i => c_mul (complex (coeffs (Z.of_nat i)) d_0) (c_pow x i))
    (S (Z.to_nat degree)).

Definition poly_deriv_value (coeffs : Z -> D) (degree : Z) (x : C) : C :=
  c_sum (fun i => c_scale i (c_mul (complex (coeffs (Z.of_nat i)) d_0) (c_pow x (Nat.pred i))))
    (S (Z.to_nat degree)).

End PolynomialValue.

(** ** A Horner pass without rounding

    [val] and [vald] read a complex number and a [double] as elements of a
    ring [R] in which the arithmetic is exact.  [horner_exact] says of one
    pass, started from [(p, p_prime)] and visiting the coefficients
    [idxs], that none of its operations rounds: the value of each result
    is the exact combination of the values of its operands. *)

Section HornerExact.

Context {D C R : Type}.
Variables (c_add c_mul : C -> C -> C) (c_add_d : C -> D -> C).
Variables (r_add r_mul : R -> R -> R).
Variables (val : C -> R) (vald : D -> R).

Fixpoint horner_exact (x : C) (coeffs : Z -> D) (idxs : list nat) (p p_prime : C) : Prop :=
  match idxs with
  | [] => True
  | i :: rest =>
      val (c_add (c_mul x p_prime) p) = r_add (r_mul (val x) (val p_prime)) (val p) /\
      val (c_add_d (c_mul x p) (coeffs (Z.of_nat i))) =
        r_add (r_mul (val x) (val p)) (vald (coeffs (Z.of_nat i))) /\
      horner_exact x coeffs rest
        (c_add_d (c_mul x p) (coeffs (Z.of_nat i))) (c_add (c_mul x p_prime) p)
  end.

End HornerExact.

(** ** IEEE 754 binary64 instance

    [double] is a binary64 number; a complex number is a pair, with the
    textbook formulas for product, quotient and modulus.  The library's
    operators differ from these at non-finite operands (product) and may
    differ in the last bit (quotient, modulus); the properties below are
    proved for every implementation of the operators, and only the
    concrete runs use this instance. *)

Module Binary64.

Definition D := float.
Definition C := (float * float)%type.

Definition d_0 : D := 0%float.
Definition d_2 : D := 2%float.
Definition d_tol : D := 0x1.0c6f7a0b5ed8dp-20%float.
Definition d_inf : D := infinity.

Definition d_of_int (z : Z) : D :=
  if z <? 0 then PrimFloat.opp (PrimFloat.of_uint63 (Uint63.of_Z (- z)))
  else PrimFloat.of_uint63 (Uint63.of_Z z).

Definition d_add : D -> D -> D := PrimFloat.add.
Definition d_sub : D -> D -> D := PrimFloat.sub.
Definition d_mul : D -> D -> D := PrimFloat.mul.
Definition d_div : D -> D -> D := PrimFloat.div.
Definition d_lt : D -> D -> bool := PrimFloat.ltb.
Definition d_eq : D -> D -> bool := PrimFloat.eqb.

Definition complex (r i : D) : C := (r, i).
Definition c_real (z : C) : D := fst z.
Definition c_imag (z : C) : D := snd z.

Definition c_add (x y : C) : C := (fst x + fst y, snd x + snd y)%float.
Definition c_sub (x y : C) : C := (fst x - fst y, snd x - snd y)%float.
Definition c_mul (x y : C) : C :=
  (fst x * fst y - snd x * snd y, fst x * snd y + snd x * fst y)%float.
Definition c_div (x y : C) : C :=
  let n := (fst y * fst y + snd y * snd y)%float in
  ((fst x * fst y + snd x * snd y) / n, (snd x * fst y - fst x * snd y) / n)%float.
Definition c_add_d (x : C) (d : D) : C := (fst x + d, snd x)%float.
Definition c_abs (x : C) : D := PrimFloat.sqrt (fst x * fst x + snd x * snd x)%float.
Definition c_eq (x y : C) : bool := PrimFloat.eqb (fst x) (fst y) && PrimFloat.eqb (snd x) (snd y).

(** The array holding the elements of [l]; zero elsewhere. *)
Definition array_of (l : list D) : Z -> D :=
  fun i => if i <? 0 then d_0 else nth (Z.to_nat i) l d_0.

Definition polynomial_and_deriv :=
  polynomial_and_deriv d_0 complex c_add c_mul c_add_d.
Definition newton_root :=
  newton_root d_0 d_inf d_lt complex c_add c_sub c_mul c_div c_add_d c_abs c_eq.
Definition converged := converged d_0 d_lt complex c_add c_mul c_add_d c_abs.
Definition zero_derivative := zero_derivative d_0 complex c_add c_mul c_add_d c_eq.
Definition compute_newton_range :=
  compute_newton_range d_0 d_tol d_inf d_of_int d_add d_mul d_lt complex c_real c_imag
    c_add c_sub c_mul c_div c_add_d c_abs c_eq.
Definition sample_newton :=
  sample_newton d_0 d_tol d_inf d_of_int d_add d_sub d_mul d_div d_lt complex c_real c_imag
    c_add c_sub c_mul c_div c_add_d c_abs c_eq.
Definition iterate := iterate d_2 d_lt c_add c_mul c_abs.
Definition assign_roots := assign_roots d_0 d_inf d_lt d_eq complex c_sub c_abs.

Definition empty_buffers : @buffers D := Buffers ∅ ∅ ∅.

Definition d_1 : D := 1%float.
Definition c_one : C := (1, 0)%float.
Definition initialise_companion_matrix := initialise_companion_matrix d_0 d_1.
Definition assign_companion_matrix := @assign_companion_matrix D.

(** The number a binary64 value stands for, when it is an integer:
    [is_integer] tells whether it is one, [integer_value] gives it (the
    integer part of a finite value that is not an integer, and zero for an
    infinity or a NaN). *)
Definition is_integer (f : D) : bool :=
  match Prim2SF f with
  | S754_zero _ => true
  | S754_finite _ m e => if 0 <=? e then true else Z.pos m mod 2 ^ (- e) =? 0
  | _ => false
  end.

Definition integer_value (f : D) : Z :=
  match Prim2SF f with
  | S754_finite s m e =>
      let v := if 0 <=? e then Z.pos m * 2 ^ e else Z.pos m / 2 ^ (- e) in
      if s then - v else v
  | _ => 0
  end.

(** The Gaussian integer with the given parts, and the one a complex
    number stands for. *)
Definition exact_complex (r i : D) : Z * Z := (integer_value r, integer_value i).
Definition exact_value (z : C) : Z * Z := exact_complex (fst z) (snd z).

End Binary64.

(** ** Gaussian integers: an exact instance of the ring operations *)

Module Gauss.

Definition C := (Z * Z)%type.

Definition complex (r i : Z) : C := (r, i).
Definition c_one : C := (1, 0).
Definition c_add (x y : C) : C := (fst x + fst y, snd x + snd y).
Definition c_sub (x y : C) : C := (fst x - fst y, snd x - snd y).
Definition c_opp (x : C) : C := (- fst x, - snd x).
Definition c_mul (x y : C) : C :=
  (fst x * fst y - snd x * snd y, fst x * snd y + snd x * fst y).
Definition c_add_d (x : C) (d : Z) : C := (fst x + d, snd x).

Definition array_of (l : list Z) : Z -> Z :=
  fun i => if i <? 0 then 0 else nth (Z.to_nat i) l 0.

End Gauss.

(** * Properties *)

(** ** Arithmetic on [int] *)

Lemma wrap_int_id z : int_range z -> wrap_int z = z.
Proof.
  unfold int_range, wrap_int, INT_MIN, INT_MAX. intros H.
  rewrite Z.mod_small; lia.
Qed.

Lemma int_div_positive a b :
  0 <= a -> 1 <= b -> int_div a b = Some (a ÷ b).
Proof.
  intros Ha Hb. unfold int_div, INT_MIN.
  destruct (Z.eqb_spec b 0); [lia|].
  destruct (Z.eqb_spec a (-2147483648)); [lia|]. reflexivity.
Qed.

(** ** Counted loops *)

Lemma for_loop_snoc {T : Type} n i (body : Z -> T -> T) s :
  for_loop (S n) i body s = body (i + Z.of_nat n) (for_loop n i body s).
Proof.
  revert i s. induction n as [|n IH]; intros i s.
  - simpl. f_equal. lia.
  - change (for_loop (S (S n)) i body s) with (for_loop (S n) (i + 1) body (body i s)).
    rewrite IH. simpl. f_equal. lia.
Qed.

(** A loop whose body appends to a list appends the bodies' outputs in
    index order. *)
Lemma for_loop_append {A : Type} (f : Z -> list A) n i acc :
  for_loop n i (fun k out => out ++ f k) acc =
  acc ++ concat (map (fun k => f (i + Z.of_nat k)) (seq 0 n)).
Proof.
  induction n as [|n IH].
  - simpl. now rewrite app_nil_r.
  - rewrite for_loop_snoc, IH, seq_S, map_app, concat_app. simpl.
    now rewrite app_nil_r, app_assoc.
Qed.

Lemma lookup_map {A B : Type} (f : A -> B) (l : list A) (i : nat) :
  map f l !! i = option_map f (l !! i).
Proof.
  revert i. induction l as [|a l IH]; intros [|i]; simpl; auto.
Qed.

(** ** [iteration_limits] *)

Lemma concat_map_singleton {A B : Type} (g : A -> B) (l : list A) :
  concat (map (fun k => [g k]) l) = map g l.
Proof. induction l as [|a l IH]; simpl; [reflexivity|now rewrite IH]. Qed.

Lemma quot_mul_le (y n k : Z) :
  0 <= y -> 1 <= n -> 0 <= k <= n -> 0 <= (y ÷ n) * k <= y.
Proof.
  intros Hy Hn Hk. rewrite Z.quot_div_nonneg by lia.
  pose proof (Z.mul_div_le y n ltac:(lia)).
  pose proof (Z.div_pos y n ltac:(lia) ltac:(lia)). nia.
Qed.

Lemma iteration_limits_value num_threads yresolution :
  1 <= num_threads <= INT_MAX -> 0 <= yresolution <= INT_MAX ->
  iteration_limits num_threads yresolution =
  Some (map (fun k => (yresolution ÷ num_threads) * Z.of_nat k) (seq 0 (Z.to_nat num_threads))
          ++ [yresolution]).
Proof.
  intros Hn Hy. unfold iteration_limits.
  rewrite int_div_positive by lia.
  unfold for_range. rewrite (for_loop_append (fun k => [int_mul _ k])).
  simpl. do 2 f_equal. rewrite Z.sub_0_r, concat_map_singleton.
  apply map_ext_in. intros k Hk. apply in_seq in Hk.
  unfold int_mul. apply wrap_int_id.
  pose proof (quot_mul_le yresolution num_threads (Z.of_nat k)).
  unfold int_range, INT_MIN, INT_MAX in *. lia.
Qed.

Lemma boundaries_lookup (span y : Z) (n i : nat) :
  (map (fun k => span * Z.of_nat k) (seq 0 n) ++ [y]) !! i =
  if (i <? n)%nat then Some (span * Z.of_nat i)
  else if (i =? n)%nat then Some y else None.
Proof.
  destruct (Nat.ltb_spec i n) as [Hlt|Hge].
  - rewrite lookup_app_l by (rewrite length_map, length_seq; lia).
    rewrite lookup_map, lookup_seq_lt by lia. reflexivity.
  - rewrite lookup_app_r by (rewrite length_map, length_seq; lia).
    rewrite length_map, length_seq.
    destruct (Nat.eqb_spec i n) as [->|Hne].
    + now rewrite Nat.sub_diag.
    + destruct (i - n)%nat as [|m] eqn:E; [lia|reflexivity].
Qed.

Lemma interval_at_boundaries (span y : Z) (n i : nat) (a b : Z) :
  interval_at (map (fun k => span * Z.of_nat k) (seq 0 n) ++ [y]) i a b <->
  (i < n)%nat /\ a = span * Z.of_nat i /\
  b = (if (S i <? n)%nat then span * Z.of_nat (S i) else y).
Proof.
  unfold interval_at. rewrite !boundaries_lookup.
  destruct (Nat.ltb_spec i n), (Nat.ltb_spec (S i) n), (Nat.eqb_spec i n),
    (Nat.eqb_spec (S i) n); try lia; split; intros H'; try (destruct H' as [H1 H2]);
    try discriminate; try lia; try (injection H1 as <-; injection H2 as <-; auto);
    try (destruct H2 as [-> ->]; auto).
Qed.

(** The intervals between the boundaries cover the rows [0 <= r <
    yresolution] and nothing else. *)
Lemma boundaries_cover (num_threads yresolution r : Z) :
  1 <= num_threads <= INT_MAX -> 0 <= yresolution <= INT_MAX ->
  let out := map (fun k => (yresolution ÷ num_threads) * Z.of_nat k)
               (seq 0 (Z.to_nat num_threads)) ++ [yresolution] in
  0 <= r < yresolution <-> exists i a b, interval_at out i a b /\ a <= r < b.
Proof.
  intros Hn Hy. cbv zeta.
  set (span := yresolution ÷ num_threads).
  set (n := Z.to_nat num_threads).
  assert (Hnn : Z.of_nat n = num_threads) by (unfold n; lia).
  assert (Hspan : forall k, 0 <= k <= num_threads -> 0 <= span * k <= yresolution)
    by (intros k Hk; apply quot_mul_le; lia).
  assert (Hspan0 : 0 <= span) by (specialize (Hspan 1); lia).
  split.
  - intros Hr.
    set (q := if span =? 0 then num_threads - 1 else Z.min (r / span) (num_threads - 1)).
    assert (Hq : 0 <= q <= num_threads - 1 /\ span * q <= r /\
                 (q < num_threads - 1 -> r < span * (q + 1))).
    { unfold q. destruct (Z.eqb_spec span 0) as [E|E].
      - rewrite E. lia.
      - pose proof (Z.div_pos r span ltac:(lia) ltac:(lia)).
        pose proof (Z.mul_div_le r span ltac:(lia)).
        pose proof (Z.mul_succ_div_gt r span ltac:(lia)).
        destruct (Z.min_spec (r / span) (num_threads - 1)) as [[? ->]|[? ->]];
          repeat split; try lia; nia. }
    exists (Z.to_nat q), (span * q), (if (S (Z.to_nat q) <? n)%nat then span * (q + 1) else yresolution).
    split.
    + apply interval_at_boundaries. repeat split; [lia|f_equal; lia|].
      destruct (Nat.ltb_spec (S (Z.to_nat q)) n); [f_equal; lia|reflexivity].
    + destruct (Nat.ltb_spec (S (Z.to_nat q)) n); lia.
  - intros (i & a & b & [Hi [-> ->]]%interval_at_boundaries & Hr).
    pose proof (Hspan (Z.of_nat i) ltac:(lia)).
    destruct (Nat.ltb_spec (S i) n); [|lia].
    pose proof (Hspan (Z.of_nat (S i)) ltac:(lia)). lia.
Qed.

(** C1.  For [num_threads >= 1] and [yresolution >= 1], [iteration_limits]
    writes the [num_threads + 1] values [0, span, 2*span, ...,
    (num_threads-1)*span, yresolution] with [span = yresolution / num_threads];
    the sequence starts at 0, ends at [yresolution] and never decreases,
    and the half-open intervals between consecutive values cover exactly
    [[0, yresolution)] and are pairwise disjoint. *)
Theorem iteration_limits_partition (num_threads yresolution : Z) :
  1 <= num_threads <= INT_MAX -> 1 <= yresolution <= INT_MAX ->
  let span := yresolution ÷ num_threads in
  exists out,
    iteration_limits num_threads yresolution = Some out /\
    out = map (fun k => span * Z.of_nat k) (seq 0 (Z.to_nat num_threads)) ++ [yresolution] /\
    length out = S (Z.to_nat num_threads) /\
    out !! 0%nat = Some 0 /\
    last out = Some yresolution /\
    (forall i a b, interval_at out i a b -> a <= b) /\
    (forall r, 0 <= r < yresolution <-> exists i a b, interval_at out i a b /\ a <= r < b) /\
    (forall r i j a b a' b',
        interval_at out i a b -> a <= r < b ->
        interval_at out j a' b' -> a' <= r < b' -> i = j).
Proof.
  intros Hn Hy span.
  eexists. split; [apply iteration_limits_value; lia|].
  split; [reflexivity|]. fold span.
  set (n := Z.to_nat num_threads).
  assert (Hnn : Z.of_nat n = num_threads) by (unfold n; lia).
  assert (Hspan : forall k, 0 <= k <= num_threads -> 0 <= span * k <= yresolution)
    by (intros k Hk; apply quot_mul_le; lia).
  assert (Hspan0 : 0 <= span) by (specialize (Hspan 1); lia).
  split; [|split; [|split; [|split; [|split]]]].
  - rewrite length_app, length_map, length_seq. simpl. lia.
  - rewrite boundaries_lookup. destruct (Nat.ltb_spec 0 n); [f_equal; lia|lia].
  - apply last_snoc.
  - intros i a b [Hi [-> ->]]%interval_at_boundaries.
    destruct (Nat.ltb_spec (S i) n); [nia|]. apply Hspan. lia.
  - intros r. apply (boundaries_cover num_threads yresolution r); lia.
  - intros r i j a b a' b' [Hi [-> ->]]%interval_at_boundaries Hr
      [Hj [-> ->]]%interval_at_boundaries Hr'.
    destruct (Nat.ltb_spec (S i) n), (Nat.ltb_spec (S j) n); try lia; nia.
Qed.

Lemma iteration_limits_partition_witness :
  exists out,
    iteration_limits 3 10 = Some out /\
    out = [0; 3; 6; 10] /\
    length out = 4%nat /\
    out !! 0%nat = Some 0 /\
    last out = Some 10 /\
    (forall i a b, interval_at out i a b -> a <= b) /\
    (forall r, 0 <= r < 10 <-> exists i a b, interval_at out i a b /\ a <= r < b) /\
    (forall r i j a b a' b',
        interval_at out i a b -> a <= r < b ->
        interval_at out j a' b' -> a' <= r < b' -> i = j).
Proof.
  apply (iteration_limits_partition 3 10); unfold INT_MAX; lia.
Defined.

(** ** [argmin] *)

Section Argmin.

Context {A : Type} (comp : A -> A -> bool).

Lemma strict_weak_on_asym l x y :
  strict_weak_on comp l = true -> In x l -> In y l ->
  comp x y = true -> comp y x = false.
Proof.
  unfold strict_weak_on. rewrite forallb_forall. intros H Hx Hy Hxy.
  specialize (H x Hx). rewrite forallb_forall in H. specialize (H y Hy).
  apply andb_true_iff in H as [H _]. rewrite Hxy in H. simpl in H.
  now apply negb_true_iff.
Qed.

Lemma strict_weak_on_negtrans l x y z :
  strict_weak_on comp l = true -> In x l -> In y l -> In z l ->
  comp x y = true -> comp x z = true \/ comp z y = true.
Proof.
  unfold strict_weak_on. rewrite forallb_forall. intros H Hx Hy Hz Hxy.
  specialize (H x Hx). rewrite forallb_forall in H. specialize (H y Hy).
  apply andb_true_iff in H as [_ H]. rewrite forallb_forall in H.
  specialize (H z Hz). rewrite Hxy in H. simpl in H. now apply orb_true_iff.
Qed.

Lemma lookup_In (l : list A) j x : l !! j = Some x -> In x l.
Proof. intros H. apply list_elem_of_In. eapply list_elem_of_lookup_2, H. Qed.

(** The loop invariant of [std::min_element]: [smallest] is the first
    position of the scanned prefix holding a least element. *)
Lemma min_element_loop_spec (rest pre : list A) (smallest : nat) (sv : A) :
  strict_weak_on comp (pre ++ rest) = true ->
  pre !! smallest = Some sv ->
  (forall j x, pre !! j = Some x -> comp x sv = false) ->
  (forall j x, (j < smallest)%nat -> pre !! j = Some x -> comp sv x = true) ->
  exists v,
    (pre ++ rest) !! min_element_loop comp rest (length pre) smallest sv = Some v /\
    (forall j x, (pre ++ rest) !! j = Some x -> comp x v = false) /\
    (forall j x, (j < min_element_loop comp rest (length pre) smallest sv)%nat ->
                 (pre ++ rest) !! j = Some x -> comp v x = true).
Proof.
  revert pre smallest sv. induction rest as [|a rest IH]; intros pre s sv Hsw Hs Hmin Hfirst.
  - simpl. rewrite app_nil_r. eauto.
  - simpl.
    assert (Hsv : In sv (pre ++ a :: rest)) by (apply in_or_app; left; eapply lookup_In, Hs).
    assert (Ha : In a (pre ++ a :: rest)) by (apply in_or_app; right; now left).
    assert (Hpre : forall j x, pre !! j = Some x -> In x (pre ++ a :: rest))
      by (intros j x Hx; apply in_or_app; left; eapply lookup_In, Hx).
    assert (Hlen : length (pre ++ [a]) = S (length pre))
      by (rewrite length_app; simpl; lia).
    pose proof (lookup_lt_Some _ _ _ Hs) as Hslt.
    replace (pre ++ a :: rest) with ((pre ++ [a]) ++ rest) in *
      by (now rewrite <- app_assoc).
    rewrite <- Hlen.
    destruct (comp a sv) eqn:Hc.
    + apply IH; auto.
      * rewrite lookup_app_r by lia. now rewrite Nat.sub_diag.
      * intros j x Hx. destruct (decide (j < length pre)%nat) as [Hj|Hj].
        -- rewrite lookup_app_l in Hx by lia.
           destruct (comp x a) eqn:Hxa; [|reflexivity].
           destruct (strict_weak_on_negtrans _ x a sv Hsw (Hpre _ _ Hx) Ha Hsv Hxa) as [H|H].
           ++ rewrite (Hmin _ _ Hx) in H. discriminate.
           ++ rewrite (strict_weak_on_asym _ a sv Hsw Ha Hsv Hc) in H. discriminate.
        -- rewrite lookup_app_r in Hx by lia.
           destruct (j - length pre)%nat; [|discriminate]. injection Hx as <-.
           destruct (comp a a) eqn:Haa; [|reflexivity].
           rewrite (strict_weak_on_asym _ a a Hsw Ha Ha Haa) in Haa. discriminate.
      * intros j x Hj Hx. rewrite lookup_app_l in Hx by lia.
        destruct (strict_weak_on_negtrans _ a sv x Hsw Ha Hsv (Hpre _ _ Hx) Hc) as [H|H];
          [exact H|].
        rewrite (Hmin _ _ Hx) in H. discriminate.
    + apply IH; auto.
      * rewrite lookup_app_l by lia. exact Hs.
      * intros j x Hx. destruct (decide (j < length pre)%nat) as [Hj|Hj].
        -- rewrite lookup_app_l in Hx by lia. eauto.
        -- rewrite lookup_app_r in Hx by lia.
           destruct (j - length pre)%nat; [|discriminate]. now injection Hx as <-.
      * intros j x Hj Hx. rewrite lookup_app_l in Hx by lia. eauto.
Qed.

Lemma argmin_spec (range : list A) :
  range <> [] -> strict_weak_on comp range = true ->
  exists v,
    range !! argmin range comp = Some v /\
    (forall j x, range !! j = Some x -> comp x v = false) /\
    (forall j x, (j < argmin range comp)%nat -> range !! j = Some x -> comp v x = true).
Proof.
  intros Hne Hsw. destruct range as [|a rest]; [congruence|].
  unfold argmin, min_element.
  apply (min_element_loop_spec rest [a] 0%nat a); auto.
  - intros [|j] x Hx; [|discriminate]. injection Hx as <-.
    destruct (comp a a) eqn:Haa; [|reflexivity].
    rewrite (strict_weak_on_asym _ a a Hsw) in Haa; auto using in_eq.
  - intros j x Hj. lia.
Qed.

End Argmin.

(** ** [polynomial_and_deriv] *)

Lemma for_down_loop_step {T : Type} n i (body : Z -> T -> T) s :
  for_down_loop (S n) i body s = for_down_loop n (i - 1) body (body i s).
Proof. reflexivity. Qed.

Section Horner.

Context {D C : Type}.
Variable d_0 : D.
Variable complex : D -> D -> C.
Variables (c_one : C) (c_add c_sub c_mul : C -> C -> C) (c_opp : C -> C).
Variable c_add_d : C -> D -> C.

Hypothesis c_ring :
  ring_theory (complex d_0 d_0) c_one c_add c_mul c_sub c_opp eq.
Hypothesis c_add_d_spec : forall z d, c_add_d z d = c_add z (complex d d_0).

Add Ring c_ring_inst : c_ring.

Local Abbreviation c_zero := (complex d_0 d_0).
Local Abbreviation pow := (c_pow c_one c_mul).
Local Abbreviation scale := (c_scale d_0 complex c_add).
Local Abbreviation sum := (c_sum d_0 complex c_add).
Local Abbreviation horner := (polynomial_and_deriv d_0 complex c_add c_mul c_add_d).

Lemma c_pow_S x n : pow x (S n) = c_mul x (pow x n).
Proof. reflexivity. Qed.

Lemma c_scale_S n z : scale (S n) z = c_add z (scale n z).
Proof. reflexivity. Qed.

Lemma c_scale_add n u v : scale n (c_add u v) = c_add (scale n u) (scale n v).
Proof.
  induction n as [|n IH]; [simpl; ring|].
  rewrite !c_scale_S, IH. ring.
Qed.

Lemma c_sum_0 term : sum term 0 = c_zero.
Proof. reflexivity. Qed.

Lemma c_sum_S term n : sum term (S n) = c_add (sum term n) (term n).
Proof.
  unfold c_sum. rewrite seq_S, map_app, fold_right_app. simpl.
  generalize (map term (seq 0 n)). intros l.
  induction l as [|a l IH]; simpl; [ring|rewrite IH; ring].
Qed.

(** [n] Horner steps from [(p, p_prime)], consuming [coeffs[n-1]] down to
    [coeffs[0]]. *)
Lemma horner_loop_spec (x : C) (coeffs : Z -> D) (n : nat) (p p_prime : C) :
  for_down_loop n (Z.of_nat n - 1)
    (fun itr '(p, p_prime) =>
       let p_prime := c_add (c_mul x p_prime) p in
       let p := c_add_d (c_mul x p) (coeffs itr) in
       (p, p_prime))
    (p, p_prime) =
  (c_add (c_mul p (pow x n))
     (sum (fun i => c_mul (complex (coeffs (Z.of_nat i)) d_0) (pow x i)) n),
   c_add (c_add (c_mul p_prime (pow x n)) (scale n (c_mul p (pow x (Nat.pred n)))))
     (sum (fun i => scale i (c_mul (complex (coeffs (Z.of_nat i)) d_0)
                                   (pow x (Nat.pred i)))) n)).
Proof.
  revert p p_prime. induction n as [|n IH]; intros p p_prime.
  - rewrite !c_sum_0. simpl. f_equal; ring.
  - rewrite for_down_loop_step.
    replace (Z.of_nat (S n) - 1) with (Z.of_nat n) by lia.
    cbv zeta. rewrite IH, !c_sum_S, c_add_d_spec. f_equal.
    + rewrite c_pow_S. ring.
    + change (Nat.pred (S n)) with n. rewrite c_scale_S, !c_pow_S.
      set (a := complex (coeffs (Z.of_nat n)) d_0).
      replace (scale n (c_mul (c_add (c_mul x p) a) (pow x (Nat.pred n))))
        with (c_add (scale n (c_mul p (pow x n)))
                    (scale n (c_mul a (pow x (Nat.pred n))))).
      * ring.
      * rewrite <- c_scale_add. destruct n as [|m]; [reflexivity|].
        simpl Nat.pred. rewrite c_pow_S. f_equal. ring.
Qed.

Lemma polynomial_and_deriv_sum (x : C) (coeffs : Z -> D) (degree : Z) :
  0 <= degree <= INT_MAX ->
  horner x coeffs degree =
  (poly_value d_0 complex c_one c_add c_mul coeffs degree x,
   poly_deriv_value d_0 complex c_one c_add c_mul coeffs degree x).
Proof.
  intros Hd. unfold polynomial_and_deriv, for_down, int_sub.
  rewrite wrap_int_id by (unfold int_range, INT_MIN, INT_MAX in *; lia).
  replace (degree - 1 + 1) with degree by lia.
  replace (degree - 1) with (Z.of_nat (Z.to_nat degree) - 1) by lia.
  rewrite horner_loop_spec.
  unfold poly_value, poly_deriv_value. rewrite !c_sum_S, Z2Nat.id by lia.
  f_equal; ring.
Qed.

End Horner.

Lemma for_down_loop_fold {T : Type} (body : Z -> T -> T) (n : nat) (s : T) :
  for_down_loop n (Z.of_nat n - 1) body s =
  fold_left (fun s k => body (Z.of_nat k) s) (rev (seq 0 n)) s.
Proof.
  revert s. induction n as [|n IH]; intros s; [reflexivity|].
  rewrite for_down_loop_step, seq_S, rev_app_distr. simpl.
  replace (Z.of_nat (S n) - 1) with (Z.of_nat n) by lia.
  rewrite <- IH. reflexivity.
Qed.

Lemma Gauss_ring :
  ring_theory (Gauss.complex 0 0) Gauss.c_one Gauss.c_add Gauss.c_mul Gauss.c_sub Gauss.c_opp eq.
Proof.
  constructor; unfold Gauss.c_add, Gauss.c_mul, Gauss.c_sub, Gauss.c_opp, Gauss.complex,
    Gauss.c_one; intros; repeat match goal with x : Gauss.C |- _ => destruct x end;
    simpl; f_equal; ring.
Qed.

Lemma Gauss_add_d z d : Gauss.c_add_d z d = Gauss.c_add z (Gauss.complex d 0).
Proof. destruct z. unfold Gauss.c_add_d, Gauss.c_add. simpl. f_equal. lia. Qed.

(** The pass as a fold over the coefficient positions, highest first. *)
Lemma polynomial_and_deriv_fold {D C : Type} (d_0 : D) (complex : D -> D -> C)
    (c_add c_mul : C -> C -> C) (c_add_d : C -> D -> C) (x : C) (coeffs : Z -> D)
    (degree : Z) :
  0 <= degree <= INT_MAX ->
  polynomial_and_deriv d_0 complex c_add c_mul c_add_d x coeffs degree =
  fold_left
    (fun '(p, p_prime) i =>
       (c_add_d (c_mul x p) (coeffs (Z.of_nat i)), c_add (c_mul x p_prime) p))
    (rev (seq 0 (Z.to_nat degree)))
    (complex (coeffs degree) d_0, complex d_0 d_0).
Proof.
  intros Hd. unfold polynomial_and_deriv, for_down, int_sub.
  rewrite wrap_int_id by (unfold int_range, INT_MIN, INT_MAX in *; lia).
  replace (degree - 1 + 1) with degree by lia.
  replace (degree - 1) with (Z.of_nat (Z.to_nat degree) - 1) by lia.
  rewrite for_down_loop_fold.
  generalize (complex (coeffs degree) d_0, complex d_0 d_0).
  induction (rev (seq 0 (Z.to_nat degree))) as [|k l IH]; intros [p p_prime];
    [reflexivity|]. simpl. apply IH.
Qed.

(** A pass none of whose operations rounds is read, step by step, as the
    same pass in the ring. *)
Lemma horner_exact_fold {D C R : Type} (c_add c_mul : C -> C -> C) (c_add_d : C -> D -> C)
    (r_add r_mul : R -> R -> R) (val : C -> R) (vald : D -> R)
    (x : C) (coeffs : Z -> D) (idxs : list nat) (p p_prime : C) :
  horner_exact c_add c_mul c_add_d r_add r_mul val vald x coeffs idxs p p_prime ->
  let result :=
    fold_left
      (fun '(p, p_prime) i =>
         (c_add_d (c_mul x p) (coeffs (Z.of_nat i)), c_add (c_mul x p_prime) p))
      idxs (p, p_prime) in
  (val (fst result), val (snd result)) =
  fold_left
    (fun '(q, q_prime) i =>
       (r_add (r_mul (val x) q) (vald (coeffs (Z.of_nat i))),
        r_add (r_mul (val x) q_prime) q))
    idxs (val p, val p_prime).
Proof.
  cbv zeta. revert p p_prime.
  induction idxs as [|i rest IH]; intros p p_prime H; [reflexivity|].
  destruct H as (Hprime & Hp & Hrest). simpl.
  rewrite (IH _ _ Hrest), Hprime, Hp. reflexivity.
Qed.

(** C3.  [polynomial_and_deriv] makes one pass over the coefficients from
    [coeffs[degree-1]] down to [coeffs[0]], updating [p_prime] and then [p]
    at each, in the arithmetic of the operators.  Whenever none of the
    operations of the pass rounds (the numbers being read in a ring [R] by
    [val], the exact complex number of given parts being [r_complex]), the
    result is the pair of the value [sum_i coeffs[i] * x^i] of the
    polynomial and the value [sum_i i * coeffs[i] * x^(i-1)] of its
    derivative.  On binary64 numbers, with coefficients [0, 0, 1] at
    [x = 3] it returns [(9, 6)]. *)
Theorem polynomial_and_deriv_horner :
  (forall (D C : Type) (d_0 : D) (complex : D -> D -> C) (c_add c_mul : C -> C -> C)
          (c_add_d : C -> D -> C) (x : C) (coeffs : Z -> D) (degree : Z),
      0 <= degree <= INT_MAX ->
      polynomial_and_deriv d_0 complex c_add c_mul c_add_d x coeffs degree =
      fold_left
        (fun '(p, p_prime) i =>
           (c_add_d (c_mul x p) (coeffs (Z.of_nat i)), c_add (c_mul x p_prime) p))
        (rev (seq 0 (Z.to_nat degree)))
        (complex (coeffs degree) d_0, complex d_0 d_0)) /\
  (forall (D C R : Type) (d_0 : D) (complex : D -> D -> C) (c_add c_mul : C -> C -> C)
          (c_add_d : C -> D -> C)
          (r_complex : D -> D -> R) (r_one : R) (r_add r_sub r_mul : R -> R -> R)
          (r_opp : R -> R) (val : C -> R),
      ring_theory (r_complex d_0 d_0) r_one r_add r_mul r_sub r_opp eq ->
      (forall a b, val (complex a b) = r_complex a b) ->
      forall (x : C) (coeffs : Z -> D) (degree : Z),
        0 <= degree <= INT_MAX ->
        horner_exact c_add c_mul c_add_d r_add r_mul val (fun d => r_complex d d_0)
          x coeffs (rev (seq 0 (Z.to_nat degree)))
          (complex (coeffs degree) d_0) (complex d_0 d_0) ->
        let result := polynomial_and_deriv d_0 complex c_add c_mul c_add_d x coeffs degree in
        val (fst result) = poly_value d_0 r_complex r_one r_add r_mul coeffs degree (val x) /\
        val (snd result) =
          poly_deriv_value d_0 r_complex r_one r_add r_mul coeffs degree (val x)) /\
  Binary64.polynomial_and_deriv (3, 0)%float (Binary64.array_of [0; 0; 1]%float) 2 =
  ((9, 0)%float, (6, 0)%float).
Proof.
  split; [|split].
  - intros. now apply polynomial_and_deriv_fold.
  - intros D C R d_0 complex c_add c_mul c_add_d r_complex r_one r_add r_sub r_mul r_opp val
      Hring Hval x coeffs degree Hd Hexact. cbv zeta.
    pose proof (polynomial_and_deriv_sum d_0 r_complex r_one r_add r_sub r_mul r_opp
                  (fun z d => r_add z (r_complex d d_0)) Hring (fun z d => eq_refl)
                  (val x) coeffs degree Hd) as Hsum.
    rewrite polynomial_and_deriv_fold in Hsum by exact Hd.
    apply horner_exact_fold in Hexact. cbv zeta in Hexact.
    rewrite <- polynomial_and_deriv_fold in Hexact by exact Hd.
    rewrite !Hval, Hsum in Hexact.
    injection Hexact as Hp Hprime. split; assumption.
  - vm_compute. reflexivity.
Qed.

(** The polynomial [x^2] at [x = 3] on binary64 numbers: the inputs are
    integers, every operation of the pass is exact, and the result stands
    for the values [9] and [6] of the polynomial and of its derivative. *)
Lemma polynomial_and_deriv_horner_witness :
  0 <= 2 <= INT_MAX /\
  forallb Binary64.is_integer [3; 0; 0; 0; 1]%float = true /\
  horner_exact Binary64.c_add Binary64.c_mul Binary64.c_add_d Gauss.c_add Gauss.c_mul
    Binary64.exact_value (fun d => Binary64.exact_complex d Binary64.d_0)
    (3, 0)%float (Binary64.array_of [0; 0; 1]%float) [1; 0]%nat
    (1, 0)%float (0, 0)%float /\
  Binary64.exact_value
    (fst (Binary64.polynomial_and_deriv (3, 0)%float (Binary64.array_of [0; 0; 1]%float) 2)) =
  poly_value Binary64.d_0 Binary64.exact_complex Gauss.c_one Gauss.c_add Gauss.c_mul
    (Binary64.array_of [0; 0; 1]%float) 2 (3, 0) /\
  Binary64.exact_value
    (snd (Binary64.polynomial_and_deriv (3, 0)%float (Binary64.array_of [0; 0; 1]%float) 2)) =
  poly_deriv_value Binary64.d_0 Binary64.exact_complex Gauss.c_one Gauss.c_add Gauss.c_mul
    (Binary64.array_of [0; 0; 1]%float) 2 (3, 0).
Proof.
  assert (Hd : 0 <= 2 <= INT_MAX) by (unfold INT_MAX; lia).
  assert (Hexact : horner_exact Binary64.c_add Binary64.c_mul Binary64.c_add_d
                     Gauss.c_add Gauss.c_mul Binary64.exact_value
                     (fun d => Binary64.exact_complex d Binary64.d_0)
                     (3, 0)%float (Binary64.array_of [0; 0; 1]%float) [1; 0]%nat
                     (1, 0)%float (0, 0)%float)
    by (vm_compute; auto).
  split; [exact Hd|]. split; [reflexivity|]. split; [exact Hexact|].
  exact (proj1 (proj2 polynomial_and_deriv_horner) Binary64.D Binary64.C Gauss.C
           Binary64.d_0 Binary64.complex Binary64.c_add Binary64.c_mul Binary64.c_add_d
           Binary64.exact_complex Gauss.c_one Gauss.c_add Gauss.c_sub Gauss.c_mul Gauss.c_opp
           Binary64.exact_value Gauss_ring (fun a b => eq_refl)
           (3, 0)%float (Binary64.array_of [0; 0; 1]%float) 2 Hd Hexact).
Defined.

(** ** Buffers and stores *)

Section Stores.

Context {D : Type}.
Implicit Types (b : @buffers D) (w : @store D) (c : cell).

Lemma read_do_store b w c :
  read (do_store b w) c = if decide (store_cell w = c) then Some (store_value w) else read b c.
Proof.
  destruct (decide (store_cell w = c)) as [E|E].
  - subst c. destruct w; unfold read; simpl; now rewrite lookup_insert_eq.
  - destruct c as [id rc], w as [rc' n|rc' v|rc' v], id; unfold read; simpl in *;
      try reflexivity; rewrite lookup_insert_ne by congruence; reflexivity.
Qed.

Lemma buffers_eq b b' : (forall c, read b c = read b' c) -> b = b'.
Proof.
  intros H. destruct b as [r i n], b' as [r' i' n'].
  f_equal; apply map_eq; intros rc.
  - specialize (H (InRe, rc)). unfold read in H; simpl in H.
    destruct (r !! rc), (r' !! rc); simpl in H; congruence.
  - specialize (H (InIm, rc)). unfold read in H; simpl in H.
    destruct (i !! rc), (i' !! rc); simpl in H; congruence.
  - specialize (H (InIterations, rc)). unfold read in H; simpl in H.
    destruct (n !! rc), (n' !! rc); simpl in H; congruence.
Qed.

Lemma do_stores_app b tr1 tr2 : do_stores b (tr1 ++ tr2) = do_stores (do_stores b tr1) tr2.
Proof. apply fold_left_app. Qed.

(** A cell that no store of the sequence addresses keeps its content. *)
Lemma read_do_stores_other tr b c :
  ~ In c (map store_cell tr) -> read (do_stores b tr) c = read b c.
Proof.
  revert b. induction tr as [|w tr IH]; intros b Hc; [reflexivity|].
  simpl in *. rewrite IH by tauto. rewrite read_do_store.
  destruct (decide (store_cell w = c)); tauto.
Qed.

(** When every store writes the value [val] assigns to its cell, a cell
    addressed by some store ends with that value, whatever the order. *)
Lemma read_do_stores_written (val : cell -> D + Z) tr b c :
  Forall (fun w => store_value w = val (store_cell w)) tr ->
  In c (map store_cell tr) -> read (do_stores b tr) c = Some (val c).
Proof.
  revert b. induction tr as [|w tr IH]; intros b Hval Hc; [destruct Hc|].
  inversion Hval as [|? ? Hw Htr]; subst. simpl.
  destruct (in_dec (decide_rel eq) c (map store_cell tr)) as [Hin|Hout].
  - now apply IH.
  - rewrite read_do_stores_other by exact Hout. rewrite read_do_store.
    destruct Hc as [Hc|Hc]; [|tauto].
    destruct (decide (store_cell w = c)); [|tauto]. congruence.
Qed.

(** Two sequences of such stores addressing the same cells have the same
    effect. *)
Lemma do_stores_same_cells (val : cell -> D + Z) tr tr' b :
  Forall (fun w => store_value w = val (store_cell w)) tr ->
  Forall (fun w => store_value w = val (store_cell w)) tr' ->
  (forall c, In c (map store_cell tr) <-> In c (map store_cell tr')) ->
  do_stores b tr = do_stores b tr'.
Proof.
  intros Hv Hv' Hcells. apply buffers_eq. intros c.
  destruct (in_dec (decide_rel eq) c (map store_cell tr)) as [Hin|Hout].
  - rewrite (read_do_stores_written val tr), (read_do_stores_written val tr'); auto.
    now apply Hcells.
  - rewrite !read_do_stores_other; auto. now rewrite <- Hcells.
Qed.

End Stores.

(** ** Interleavings *)

Lemma interleaving_In {A : Type} (traces : list (list A)) (tr : list A) :
  interleaving traces tr -> forall a, In a tr <-> In a (concat traces).
Proof.
  induction 1 as [traces Hnil|before a t after tr Hi IH]; intros x.
  - split; [intros []|]. intros Hx. apply in_concat in Hx as (t & Ht & Hx).
    rewrite Forall_forall in Hnil. rewrite (Hnil t) in Hx; [destruct Hx|].
    now apply list_elem_of_In.
  - rewrite concat_app in *. simpl. rewrite in_app_iff. simpl. rewrite in_app_iff.
    specialize (IH x). rewrite in_app_iff in IH. simpl in IH.
    rewrite in_app_iff in IH. tauto.
Qed.

(** Running the threads one after the other is one of the interleavings. *)
Lemma interleaving_sequential {A : Type} (traces : list (list A)) :
  interleaving traces (concat traces).
Proof.
  assert (H : forall done traces, Forall (fun t : list A => t = []) done ->
                interleaving (done ++ traces) (concat traces)).
  { intros done ts. revert done. induction ts as [|t ts IH]; intros done Hdone.
    - rewrite app_nil_r. now constructor.
    - simpl. induction t as [|a t IHt].
      + simpl. replace (done ++ [] :: ts) with ((done ++ [[]]) ++ ts)
          by (now rewrite <- app_assoc).
        apply IH. apply Forall_app. split; [exact Hdone|]. now repeat constructor.
      + simpl. now constructor. }
  apply (H [] traces). constructor.
Qed.

(** ** Loops that store *)

Lemma for_loop_ext {T : Type} (body body' : Z -> T -> T) n i s :
  (forall k t, body k t = body' k t) -> for_loop n i body s = for_loop n i body' s.
Proof.
  intros H. revert i s. induction n as [|n IH]; intros i s; [reflexivity|].
  simpl. now rewrite H, IH.
Qed.

Lemma for_loop_do_stores {D : Type} (f : Z -> list (@store D)) n i b :
  for_loop n i (fun k b => do_stores b (f k)) b =
  do_stores b (concat (map (fun k => f (i + Z.of_nat k)) (seq 0 n))).
Proof.
  induction n as [|n IH]; [reflexivity|].
  rewrite for_loop_snoc, IH, seq_S, map_app, concat_app, do_stores_app. simpl.
  now rewrite app_nil_r.
Qed.

(** A loop nest storing [f itr jtr] at [(itr, jtr)] for every pixel of a
    grid. *)
Lemma row_insert_lookup {V : Type} (f : Z -> Z -> V) (r : Z) (columns : nat)
    (m : gmap (Z * Z) V) (rc : Z * Z) :
  for_loop columns 0 (fun jtr m => <[(r, jtr) := f r jtr]> m) m !! rc =
  if decide (fst rc = r /\ 0 <= snd rc < Z.of_nat columns)
  then Some (f (fst rc) (snd rc)) else m !! rc.
Proof.
  induction columns as [|n IH].
  - simpl. case_decide; [lia|reflexivity].
  - rewrite for_loop_snoc. destruct rc as [r' c']. simpl in *.
    destruct (decide ((r, 0 + Z.of_nat n) = (r', c'))) as [E|E].
    + injection E as <- <-. rewrite lookup_insert_eq. rewrite decide_True by lia.
      reflexivity.
    + rewrite lookup_insert_ne by exact E. rewrite IH.
      repeat case_decide; try reflexivity; try lia.
      exfalso. apply E. f_equal; lia.
Qed.

Lemma grid_insert_lookup {V : Type} (f : Z -> Z -> V) (rows columns : nat)
    (m : gmap (Z * Z) V) (rc : Z * Z) :
  for_loop rows 0
    (fun itr m => for_loop columns 0 (fun jtr m => <[(itr, jtr) := f itr jtr]> m) m) m !! rc =
  if decide (0 <= fst rc < Z.of_nat rows /\ 0 <= snd rc < Z.of_nat columns)
  then Some (f (fst rc) (snd rc)) else m !! rc.
Proof.
  induction rows as [|n IH].
  - simpl. case_decide; [lia|reflexivity].
  - rewrite for_loop_snoc, row_insert_lookup, IH.
    repeat case_decide; try reflexivity; lia.
Qed.

(** ** Properties over every implementation of the arithmetic *)

Section Properties.

Context {D C : Type}.
Variables (d_0 d_2 d_tol d_inf : D).
Variable d_of_int : Z -> D.
Variables (d_add d_sub d_mul d_div : D -> D -> D).
Variable d_lt : D -> D -> bool.
Variable complex : D -> D -> C.
Variables (c_real c_imag : C -> D).
Variables (c_add c_sub c_mul c_div : C -> C -> C).
Variable c_add_d : C -> D -> C.
Variable c_abs : C -> D.
Variable c_eq : C -> C -> bool.

Local Abbreviation pd := (polynomial_and_deriv d_0 complex c_add c_mul c_add_d).
Local Abbreviation nloop :=
  (newton_loop d_0 d_inf d_lt complex c_add c_sub c_mul c_div c_add_d c_abs c_eq).
Local Abbreviation nroot :=
  (newton_root d_0 d_inf d_lt complex c_add c_sub c_mul c_div c_add_d c_abs c_eq).
Local Abbreviation conv := (converged d_0 d_lt complex c_add c_mul c_add_d c_abs).
Local Abbreviation zderiv := (zero_derivative d_0 complex c_add c_mul c_add_d c_eq).
Local Abbreviation nstep := (newton_step d_0 complex c_add c_sub c_mul c_div c_add_d).
Local Abbreviation niter := (newton_iterate d_0 complex c_add c_sub c_mul c_div c_add_d).
Local Abbreviation c_inf := (c_infinity d_inf complex).

(** One turn of the loop of [newton_root]. *)
Lemma newton_loop_S n itr coeffs init x degree tol :
  nloop (S n) itr coeffs init x degree tol =
  if conv coeffs degree tol x then NewtonResult x itr []
  else if zderiv coeffs degree x then NewtonResult c_inf INT_MAX [init]
  else nloop n (itr + 1) coeffs init (nstep coeffs degree x) degree tol.
Proof.
  unfold converged, zero_derivative, newton_step. simpl.
  destruct (pd x coeffs degree) as [f_x g_x]. reflexivity.
Qed.

Lemma newton_iterate_S coeffs degree x k :
  niter coeffs degree (nstep coeffs degree x) k = niter coeffs degree x (S k).
Proof. unfold newton_iterate. now rewrite Nat.iter_succ_r. Qed.

(** The outcomes of [n] turns started at iteration count [itr] from [x]. *)
Lemma newton_loop_outcomes n itr coeffs init x degree tol :
  let r := nloop n itr coeffs init x degree tol in
  let xs := niter coeffs degree x in
  (exists k, (k < n)%nat /\
     (forall j, (j < k)%nat ->
        conv coeffs degree tol (xs j) = false /\ zderiv coeffs degree (xs j) = false) /\
     conv coeffs degree tol (xs k) = true /\
     r = NewtonResult (xs k) (itr + Z.of_nat k) []) \/
  (exists k, (k < n)%nat /\
     (forall j, (j < k)%nat ->
        conv coeffs degree tol (xs j) = false /\ zderiv coeffs degree (xs j) = false) /\
     conv coeffs degree tol (xs k) = false /\ zderiv coeffs degree (xs k) = true /\
     r = NewtonResult c_inf INT_MAX [init]) \/
  ((forall j, (j < n)%nat ->
        conv coeffs degree tol (xs j) = false /\ zderiv coeffs degree (xs j) = false) /\
   r = NewtonResult c_inf INT_MAX []).
Proof.
  cbv zeta. revert itr x. induction n as [|n IH]; intros itr x.
  - right; right. split; [intros j Hj; lia|reflexivity].
  - rewrite newton_loop_S.
    destruct (conv coeffs degree tol x) eqn:Hc.
    { left. exists 0%nat. split; [lia|]. split; [intros j Hj; lia|]. split; [exact Hc|].
      simpl. f_equal. lia. }
    destruct (zderiv coeffs degree x) eqn:Hz.
    { right; left. exists 0%nat. split; [lia|]. split; [intros j Hj; lia|]. auto. }
    assert (Hshift : forall k (P : C -> Prop),
               (forall j, (j < k)%nat -> P (niter coeffs degree (nstep coeffs degree x) j)) ->
               P x -> forall j, (j < S k)%nat -> P (niter coeffs degree x j)).
    { intros k P HP Hx [|j] Hj; [exact Hx|]. rewrite <- newton_iterate_S. apply HP. lia. }
    destruct (IH (itr + 1) (nstep coeffs degree x))
      as [(k & Hk & Hbefore & Hconv & Hr)|[(k & Hk & Hbefore & Hconv & Hzero & Hr)|(Hall & Hr)]].
    + left. exists (S k). rewrite <- newton_iterate_S.
      split; [lia|]. split; [|split; [exact Hconv|]].
      * apply (Hshift k (fun y => conv coeffs degree tol y = false /\ zderiv coeffs degree y = false));
          auto.
      * rewrite Hr. f_equal. lia.
    + right; left. exists (S k). rewrite <- newton_iterate_S.
      split; [lia|]. split; [|auto].
      apply (Hshift k (fun y => conv coeffs degree tol y = false /\ zderiv coeffs degree y = false));
        auto.
    + right; right. split; [|exact Hr].
      apply (Hshift n (fun y => conv coeffs degree tol y = false /\ zderiv coeffs degree y = false));
        auto.
Qed.


(** C2.  [newton_root] has three outcomes and always returns: the test
    [abs(f_x) < tol] succeeds at some iteration [k < max_itr], and the
    current point is returned with [k] as iteration count; or, before
    that, the derivative compares equal to zero, and the point
    [(inf, inf)] is returned with [INT_MAX] as iteration count (and the
    starting point is reported); or neither happens in [max_itr]
    iterations, and [(inf, inf)] is returned with [INT_MAX]. *)
Theorem newton_root_outcomes (coeffs : Z -> D) (x0 : C) (degree max_itr : Z) (tol : D) :
  let r := nroot coeffs x0 degree max_itr tol in
  let xs := niter coeffs degree x0 in
  (exists k, Z.of_nat k < max_itr /\
     (forall j, (j < k)%nat ->
        conv coeffs degree tol (xs j) = false /\ zderiv coeffs degree (xs j) = false) /\
     conv coeffs degree tol (xs k) = true /\
     r = NewtonResult (xs k) (Z.of_nat k) []) \/
  (exists k, Z.of_nat k < max_itr /\
     (forall j, (j < k)%nat ->
        conv coeffs degree tol (xs j) = false /\ zderiv coeffs degree (xs j) = false) /\
     conv coeffs degree tol (xs k) = false /\ zderiv coeffs degree (xs k) = true /\
     r = NewtonResult c_inf INT_MAX [x0]) \/
  ((forall j, Z.of_nat j < max_itr ->
        conv coeffs degree tol (xs j) = false /\ zderiv coeffs degree (xs j) = false) /\
   r = NewtonResult c_inf INT_MAX []).
Proof.
  cbv zeta. unfold newton_root.
  destruct (newton_loop_outcomes (Z.to_nat max_itr) 0 coeffs x0 x0 degree tol)
    as [(k & Hk & H)|[(k & Hk & H)|(Hall & Hr)]].
  - left. exists k. split; [lia|exact H].
  - right; left. exists k. split; [lia|exact H].
  - right; right. split; [|exact Hr]. intros j Hj. apply Hall. lia.
Qed.

(** C10, with the bound on [max_itr] it needs.  The convergence test comes
    first in each iteration: when [max_itr >= 1] and [abs(p(x0)) < tol],
    [newton_root] returns [x0] with iteration count 0, whatever the
    derivative at [x0]; and the zero-derivative report is made only at an
    iterate where the derivative compares equal to zero and the
    convergence test has failed. *)
Theorem newton_root_convergence_first (coeffs : Z -> D) (x0 : C) (degree max_itr : Z)
    (tol : D) :
  (1 <= max_itr -> conv coeffs degree tol x0 = true ->
   nroot coeffs x0 degree max_itr tol = NewtonResult x0 0 []) /\
  (cerr (nroot coeffs x0 degree max_itr tol) <> [] ->
   exists k, Z.of_nat k < max_itr /\
     zderiv coeffs degree (niter coeffs degree x0 k) = true /\
     conv coeffs degree tol (niter coeffs degree x0 k) = false).
Proof.
  split.
  - intros Hmax Hconv. unfold newton_root.
    destruct (Z.to_nat max_itr) as [|n] eqn:E; [lia|].
    now rewrite newton_loop_S, Hconv.
  - unfold newton_root.
    destruct (newton_loop_outcomes (Z.to_nat max_itr) 0 coeffs x0 x0 degree tol)
      as [(k & Hk & _ & _ & ->)|[(k & Hk & _ & Hc & Hz & _)|(_ & ->)]];
      simpl; try congruence.
    intros _. exists k. split; [lia|auto].
Qed.

(** *** [compute_newton_range] *)

Local Abbreviation pixel :=
  (newton_pixel d_0 d_tol d_inf d_of_int d_add d_mul d_lt complex c_real c_imag
     c_add c_sub c_mul c_div c_add_d c_abs c_eq).
Local Abbreviation cnr :=
  (compute_newton_range d_0 d_tol d_inf d_of_int d_add d_mul d_lt complex c_real c_imag
     c_add c_sub c_mul c_div c_add_d c_abs c_eq).
Local Abbreviation cnr_trace :=
  (compute_newton_range_trace d_0 d_tol d_inf d_of_int d_add d_mul d_lt complex c_real c_imag
     c_add c_sub c_mul c_div c_add_d c_abs c_eq).
Local Abbreviation cell_value :=
  (newton_cell_value d_0 d_tol d_inf d_of_int d_add d_mul d_lt complex c_real c_imag
     c_add c_sub c_mul c_div c_add_d c_abs c_eq).
Local Abbreviation point := (plane_point d_of_int d_add d_mul complex).

Section Range.

Variables (coeffs : Z -> D) (max_itr degree xresolution : Z).
Variables (startx starty deltax deltay : D).

Let px := pixel coeffs max_itr degree startx starty deltax deltay.
Let value := cell_value coeffs max_itr degree startx starty deltax deltay.

Let rstores :=
  range_stores d_0 d_tol d_inf d_of_int d_add d_mul d_lt complex c_real c_imag
    c_add c_sub c_mul c_div c_add_d c_abs c_eq coeffs max_itr degree
    startx starty deltax deltay.

Lemma compute_newton_range_trace_stores start_itr end_itr :
  cnr_trace coeffs max_itr degree xresolution start_itr end_itr startx starty deltax deltay =
  rstores start_itr (Z.to_nat (end_itr - start_itr)) (Z.to_nat (xresolution - 0)).
Proof.
  unfold compute_newton_range_trace, for_range, rstores, range_stores.
  erewrite for_loop_ext by (intros; apply for_loop_append).
  rewrite for_loop_append. reflexivity.
Qed.

Lemma compute_newton_range_stores b start_itr end_itr :
  cnr b coeffs max_itr degree xresolution start_itr end_itr startx starty deltax deltay =
  do_stores b
    (cnr_trace coeffs max_itr degree xresolution start_itr end_itr startx starty deltax deltay).
Proof.
  rewrite compute_newton_range_trace_stores.
  unfold compute_newton_range, for_range, rstores, range_stores.
  erewrite for_loop_ext by (intros; apply for_loop_do_stores).
  rewrite for_loop_do_stores. reflexivity.
Qed.


Lemma newton_pixel_In w itr jtr :
  In w (px itr jtr) -> snd (store_cell w) = (itr, jtr) /\ store_value w = value (store_cell w).
Proof.
  unfold px, newton_pixel. simpl.
  intros [<-|[<-|[<-|[]]]]; split; reflexivity.
Qed.

Lemma newton_pixel_cell id itr jtr : In (id, (itr, jtr)) (map store_cell (px itr jtr)).
Proof. unfold px, newton_pixel. destruct id; simpl; tauto. Qed.

Lemma range_stores_In w start_itr rows columns :
  In w (rstores start_itr rows columns) <->
  exists i j, (i < rows)%nat /\ (j < columns)%nat /\
              In w (px (start_itr + Z.of_nat i) (0 + Z.of_nat j)).
Proof.
  unfold rstores, range_stores. fold px. rewrite in_concat. split.
  - intros (row & Hrow & Hw). apply in_map_iff in Hrow as (i & <- & Hi).
    apply in_concat in Hw as (p & Hp & Hw). apply in_map_iff in Hp as (j & <- & Hj).
    apply in_seq in Hi, Hj. exists i, j. repeat split; [lia|lia|exact Hw].
  - intros (i & j & Hi & Hj & Hw). eexists. split.
    + apply in_map_iff. exists i. split; [reflexivity|apply in_seq; lia].
    + apply in_concat. eexists. split; [|exact Hw].
      apply in_map_iff. exists j. split; [reflexivity|apply in_seq; lia].
Qed.

Lemma range_stores_values start_itr rows columns :
  Forall (fun w => store_value w = value (store_cell w))
    (rstores start_itr rows columns).
Proof.
  apply Forall_forall. intros w Hw%list_elem_of_In.
  apply range_stores_In in Hw as (i & j & _ & _ & Hw).
  now apply newton_pixel_In in Hw.
Qed.

Lemma range_stores_cells c start_itr rows columns :
  In c (map store_cell (rstores start_itr rows columns)) <->
  start_itr <= fst (snd c) < start_itr + Z.of_nat rows /\
  0 <= snd (snd c) < Z.of_nat columns.
Proof.
  rewrite in_map_iff. split.
  - intros (w & <- & Hw). apply range_stores_In in Hw as (i & j & Hi & Hj & Hw).
    apply newton_pixel_In in Hw as [-> _]. simpl. lia.
  - intros [Hr Hc]. destruct c as [id [r col]]. simpl in *.
    pose proof (newton_pixel_cell id r col) as (w & Hcell & Hw)%in_map_iff.
    exists w. split; [exact Hcell|]. apply range_stores_In.
    exists (Z.to_nat (r - start_itr)), (Z.to_nat col).
    split; [lia|]. split; [lia|].
    replace (start_itr + Z.of_nat (Z.to_nat (r - start_itr))) with r by lia.
    replace (0 + Z.of_nat (Z.to_nat col)) with col by lia. exact Hw.
Qed.

Lemma compute_newton_range_trace_cells c start_itr end_itr :
  In c (map store_cell
          (cnr_trace coeffs max_itr degree xresolution start_itr end_itr
             startx starty deltax deltay)) <->
  start_itr <= fst (snd c) < end_itr /\ 0 <= snd (snd c) < xresolution.
Proof.
  rewrite compute_newton_range_trace_stores, range_stores_cells. lia.
Qed.

Lemma compute_newton_range_trace_values start_itr end_itr :
  Forall (fun w => store_value w = value (store_cell w))
    (cnr_trace coeffs max_itr degree xresolution start_itr end_itr
       startx starty deltax deltay).
Proof. rewrite compute_newton_range_trace_stores. apply range_stores_values. Qed.

(** The content of a cell after a worker has run. *)
Lemma compute_newton_range_read b start_itr end_itr c :
  read (cnr b coeffs max_itr degree xresolution start_itr end_itr
          startx starty deltax deltay) c =
  if decide (start_itr <= fst (snd c) < end_itr /\ 0 <= snd (snd c) < xresolution)
  then Some (value c) else read b c.
Proof.
  rewrite compute_newton_range_stores. case_decide as Hc.
  - apply read_do_stores_written.
    + apply compute_newton_range_trace_values.
    + now apply compute_newton_range_trace_cells.
  - apply read_do_stores_other. now rewrite compute_newton_range_trace_cells.
Qed.

End Range.

Lemma lookup_of_read_inl (m : gmap (Z * Z) D) rc (v : D) :
  option_map (@inl D Z) (m !! rc) = Some (inl v) -> m !! rc = Some v.
Proof. destruct (m !! rc); simpl; congruence. Qed.

Lemma lookup_of_read_inr (m : gmap (Z * Z) Z) rc (n : Z) :
  option_map (@inr D Z) (m !! rc) = Some (inr n) -> m !! rc = Some n.
Proof. destruct (m !! rc); simpl; congruence. Qed.

Lemma lookup_of_read_eq {A B : Type} (f : A -> B) (m m' : gmap (Z * Z) A) rc :
  (forall x y, f x = f y -> x = y) ->
  option_map f (m !! rc) = option_map f (m' !! rc) -> m !! rc = m' !! rc.
Proof.
  intros Hf. destruct (m !! rc), (m' !! rc); simpl; try congruence.
  intros [= H]. f_equal. now apply Hf.
Qed.

(** C4.  For every row [r] of [[start_itr, end_itr)] and column [c] of
    [[0, xresolution)], [compute_newton_range] runs [newton_root] with
    tolerance [1e-6] on the point [(startx + deltax*c, starty + deltay*r)]
    and stores the real part of the result in [re[r][c]], the imaginary
    part in [im[r][c]] and the iteration count in [iterations[r][c]];
    every other element of the three buffers is left as it was. *)
Theorem compute_newton_range_writes (b : buffers) (coeffs : Z -> D)
    (max_itr degree xresolution start_itr end_itr : Z) (startx starty deltax deltay : D)
    (r c : Z) :
  let b' := cnr b coeffs max_itr degree xresolution start_itr end_itr
              startx starty deltax deltay in
  let res := nroot coeffs
               (complex (d_add startx (d_mul deltax (d_of_int c)))
                        (d_add starty (d_mul deltay (d_of_int r))))
               degree max_itr d_tol in
  (start_itr <= r < end_itr /\ 0 <= c < xresolution ->
     re b' !! (r, c) = Some (c_real (root res)) /\
     im b' !! (r, c) = Some (c_imag (root res)) /\
     iterations b' !! (r, c) = Some (itr_taken res)) /\
  (~ (start_itr <= r < end_itr /\ 0 <= c < xresolution) ->
     re b' !! (r, c) = re b !! (r, c) /\
     im b' !! (r, c) = im b !! (r, c) /\
     iterations b' !! (r, c) = iterations b !! (r, c)).
Proof.
  cbv zeta.
  pose proof (fun id => compute_newton_range_read coeffs max_itr degree xresolution
                          startx starty deltax deltay b start_itr end_itr (id, (r, c))) as H.
  simpl in H. split; intros Hrc.
  - pose proof (H InRe) as Hre. pose proof (H InIm) as Him.
    pose proof (H InIterations) as Hit.
    rewrite decide_True in Hre, Him, Hit by exact Hrc.
    split; [|split].
    + now apply lookup_of_read_inl in Hre.
    + now apply lookup_of_read_inl in Him.
    + now apply lookup_of_read_inr in Hit.
  - pose proof (H InRe) as Hre. pose proof (H InIm) as Him.
    pose proof (H InIterations) as Hit.
    rewrite decide_False in Hre, Him, Hit by exact Hrc.
    split; [|split].
    + apply lookup_of_read_eq in Hre; [exact Hre|congruence].
    + apply lookup_of_read_eq in Him; [exact Him|congruence].
    + apply lookup_of_read_eq in Hit; [exact Hit|congruence].
Qed.

(** *** [sample_newton] *)

Local Abbreviation sample :=
  (sample_newton d_0 d_tol d_inf d_of_int d_add d_sub d_mul d_div d_lt complex c_real c_imag
     c_add c_sub c_mul c_div c_add_d c_abs c_eq).
Local Abbreviation sample_run :=
  (sample_newton_run d_0 d_tol d_inf d_of_int d_add d_sub d_mul d_div d_lt complex c_real c_imag
     c_add c_sub c_mul c_div c_add_d c_abs c_eq).

Lemma thread_ranges_map (increments : list Z) :
  thread_ranges increments =
  map (fun k => (nth k increments 0, nth (S k) increments 0))
    (seq 0 (length increments - 1)).
Proof.
  unfold thread_ranges, for_range.
  rewrite (for_loop_append (fun k => [(nth (Z.to_nat k) increments 0,
                                        nth (Z.to_nat (k + 1)) increments 0)])).
  simpl. rewrite concat_map_singleton.
  replace (Z.to_nat (Z.of_nat (length increments) - 1 - 0))
    with (length increments - 1)%nat by lia.
  apply map_ext. intros k. f_equal; f_equal; lia.
Qed.

(** Thread number [i] is given the interval between boundaries [i] and
    [i + 1]. *)
Lemma thread_ranges_lookup (increments : list Z) (i : nat) (s e : Z) :
  thread_ranges increments !! i = Some (s, e) <-> interval_at increments i s e.
Proof.
  rewrite thread_ranges_map, lookup_map. unfold interval_at.
  destruct (decide (i < length increments - 1)%nat) as [Hi|Hi].
  - rewrite lookup_seq_lt by exact Hi. simpl. rewrite !nth_lookup.
    destruct (lookup_lt_is_Some_2 increments i ltac:(lia)) as [a Ha].
    destruct (lookup_lt_is_Some_2 increments (S i) ltac:(lia)) as [a' Ha'].
    rewrite Ha, Ha'. simpl. split; [intros [= <- <-]; auto|intros [[= <-] [= <-]]; auto].
  - rewrite lookup_seq_ge by lia. simpl. split; [discriminate|].
    intros [_ He]. apply lookup_lt_Some in He. lia.
Qed.

Lemma thread_ranges_length (increments : list Z) :
  length (thread_ranges increments) = (length increments - 1)%nat.
Proof. now rewrite thread_ranges_map, length_map, length_seq. Qed.

Section Sampling.

Variables (coeffs : Z -> D) (max_itr degree xresolution yresolution : Z).
Variables (startx starty deltax deltay : D).

Let value := cell_value coeffs max_itr degree startx starty deltax deltay.

(** The store sequences of the threads launched for [increments]. *)
Let traces (increments : list Z) : list (list (@store D)) :=
  map (fun '(start_itr, end_itr) =>
         cnr_trace coeffs max_itr degree xresolution start_itr end_itr
           startx starty deltax deltay)
    (thread_ranges increments).

Lemma traces_values increments :
  Forall (fun w => store_value w = value (store_cell w)) (concat (traces increments)).
Proof.
  apply Forall_concat, Forall_forall. intros t Ht%list_elem_of_In.
  apply in_map_iff in Ht as ([s e] & <- & _).
  apply compute_newton_range_trace_values.
Qed.

Lemma traces_cells increments c :
  In c (map store_cell (concat (traces increments))) <->
  (exists i s e, interval_at increments i s e /\ s <= fst (snd c) < e) /\
  0 <= snd (snd c) < xresolution.
Proof.
  rewrite concat_map, in_concat. split.
  - intros (cells & Hcells & Hc). apply in_map_iff in Hcells as (t & <- & Ht).
    apply in_map_iff in Ht as ([s e] & <- & Hse).
    apply compute_newton_range_trace_cells in Hc as [Hr Hcol].
    apply list_elem_of_In, list_elem_of_lookup in Hse as [i Hi].
    apply thread_ranges_lookup in Hi. split; [|exact Hcol]. now exists i, s, e.
  - intros [(i & s & e & Hi & Hr) Hcol]. apply thread_ranges_lookup in Hi.
    eexists. split.
    + apply in_map_iff. eexists. split; [reflexivity|].
      apply in_map_iff. exists (s, e). split; [reflexivity|].
      eapply list_elem_of_In, list_elem_of_lookup_2, Hi.
    + now apply compute_newton_range_trace_cells.
Qed.

(** Running the threads in turn performs their stores in turn. *)
Lemma run_threads_stores (threads : list (Z * Z)) (b : buffers) :
  fold_left
    (fun b '(start_itr, end_itr) =>
       cnr b coeffs max_itr degree xresolution start_itr end_itr
         startx starty deltax deltay)
    threads b =
  do_stores b
    (concat (map (fun '(start_itr, end_itr) =>
                    cnr_trace coeffs max_itr degree xresolution start_itr end_itr
                      startx starty deltax deltay) threads)).
Proof.
  revert b. induction threads as [|[s e] threads IH]; intros b; [reflexivity|].
  simpl. now rewrite IH, do_stores_app, compute_newton_range_stores.
Qed.

(** Every interleaving of the threads' stores leaves the buffers that
    running the threads in turn leaves. *)
Lemma interleaving_stores increments tr b :
  interleaving (traces increments) tr ->
  do_stores b tr = do_stores b (concat (traces increments)).
Proof.
  intros Hi. pose proof (interleaving_In _ _ Hi) as HIn.
  apply (do_stores_same_cells value).
  - apply Forall_forall. intros w Hw%list_elem_of_In%HIn.
    pose proof (traces_values increments) as Hv. rewrite Forall_forall in Hv.
    now apply Hv, list_elem_of_In.
  - apply traces_values.
  - intros c. rewrite !in_map_iff. split; intros (w & Hc & Hw); exists w;
      (split; [exact Hc|now apply HIn]).
Qed.

End Sampling.

Lemma sample_newton_value b coeffs max_itr num_threads degree xresolution yresolution
    startx endx starty endy increments :
  iteration_limits num_threads yresolution = Some increments ->
  let deltax := d_div (d_sub endx startx) (d_of_int xresolution) in
  let deltay := d_div (d_sub endy starty) (d_of_int yresolution) in
  sample b coeffs max_itr num_threads degree xresolution yresolution startx endx starty endy =
  Some (do_stores b
          (concat (map (fun '(start_itr, end_itr) =>
                          cnr_trace coeffs max_itr degree xresolution start_itr end_itr
                            startx starty deltax deltay)
                     (thread_ranges increments))),
        INT_MAX).
Proof.
  intros Hinc. cbv zeta. unfold sample_newton. rewrite Hinc.
  now rewrite run_threads_stores.
Qed.

(** The cells stored by the threads of a call are the cells of the grid. *)
Lemma sample_newton_cells coeffs max_itr num_threads degree xresolution yresolution
    startx starty deltax deltay c :
  1 <= num_threads <= INT_MAX -> 0 <= yresolution <= INT_MAX ->
  In c (map store_cell
          (concat (map (fun '(start_itr, end_itr) =>
                          cnr_trace coeffs max_itr degree xresolution start_itr end_itr
                            startx starty deltax deltay)
                     (thread_ranges
                        (map (fun k => (yresolution ÷ num_threads) * Z.of_nat k)
                           (seq 0 (Z.to_nat num_threads)) ++ [yresolution]))))) <->
  0 <= fst (snd c) < yresolution /\ 0 <= snd (snd c) < xresolution.
Proof.
  intros Hn Hy. rewrite traces_cells.
  now rewrite <- (boundaries_cover num_threads yresolution (fst (snd c)) Hn Hy).
Qed.

(** C5.  Sampling is deterministic and does not depend on the number of
    threads: with the same geometry, coefficients and [max_itr], a call
    with [num_threads1] threads, whatever the interleaving of its threads'
    stores, and a call with [num_threads2] threads end with the same
    buffers; a cell of the grid holds the value computed from its own
    row and column, every other cell is left as it was. *)
Theorem sample_newton_thread_independent (b : buffers) (coeffs : Z -> D)
    (max_itr degree xresolution yresolution num_threads1 num_threads2 : Z)
    (startx endx starty endy : D) :
  1 <= num_threads1 <= INT_MAX -> 1 <= num_threads2 <= INT_MAX ->
  1 <= yresolution <= INT_MAX ->
  exists out,
    sample b coeffs max_itr num_threads1 degree xresolution yresolution
      startx endx starty endy = Some out /\
    sample b coeffs max_itr num_threads2 degree xresolution yresolution
      startx endx starty endy = Some out /\
    sample_run b coeffs max_itr num_threads1 degree xresolution yresolution
      startx endx starty endy out /\
    (forall out',
        sample_run b coeffs max_itr num_threads1 degree xresolution yresolution
          startx endx starty endy out' -> out' = out) /\
    (forall c,
        read (fst out) c =
        if decide (0 <= fst (snd c) < yresolution /\ 0 <= snd (snd c) < xresolution)
        then Some (cell_value coeffs max_itr degree startx starty
                     (d_div (d_sub endx startx) (d_of_int xresolution))
                     (d_div (d_sub endy starty) (d_of_int yresolution)) c)
        else read b c).
Proof.
  intros Hn1 Hn2 Hy.
  pose proof (iteration_limits_value num_threads1 yresolution Hn1 ltac:(lia)) as Hinc1.
  pose proof (iteration_limits_value num_threads2 yresolution Hn2 ltac:(lia)) as Hinc2.
  set (deltax := d_div (d_sub endx startx) (d_of_int xresolution)).
  set (deltay := d_div (d_sub endy starty) (d_of_int yresolution)).
  set (value := cell_value coeffs max_itr degree startx starty deltax deltay).
  eexists. split; [apply sample_newton_value, Hinc1|]. cbv zeta. fold deltax deltay.
  split; [|split; [|split]].
  - rewrite (sample_newton_value _ _ _ _ _ _ _ _ _ _ _ _ Hinc2). cbv zeta.
    fold deltax deltay. f_equal. f_equal.
    apply (do_stores_same_cells value); try apply traces_values.
    intros c. rewrite !sample_newton_cells by lia. reflexivity.
  - unfold sample_newton_run. fold deltax deltay.
    eexists _, _. split; [exact Hinc1|]. split; [apply interleaving_sequential|reflexivity].
  - intros out' (increments & tr & Hinc & Hi & ->). fold deltax deltay in Hi.
    rewrite Hinc1 in Hinc. injection Hinc as <-. f_equal.
    now apply interleaving_stores.
  - intros c. simpl. case_decide as Hc.
    + apply read_do_stores_written; [apply traces_values|].
      apply sample_newton_cells; [lia|lia|exact Hc].
    + apply read_do_stores_other. rewrite sample_newton_cells by lia. exact Hc.
Qed.

(** C6, as the code has it.  [sample_newton] launches one worker for every
    interval between consecutive boundaries, [num_threads] workers in all,
    the empty intervals included; a worker given an empty interval
    performs no store and leaves the buffers as they are. *)
Theorem sample_newton_one_worker_per_interval (b : buffers) (coeffs : Z -> D)
    (max_itr degree xresolution yresolution num_threads : Z)
    (startx endx starty endy : D) :
  1 <= num_threads <= INT_MAX -> 1 <= yresolution <= INT_MAX ->
  let deltax := d_div (d_sub endx startx) (d_of_int xresolution) in
  let deltay := d_div (d_sub endy starty) (d_of_int yresolution) in
  exists increments,
    iteration_limits num_threads yresolution = Some increments /\
    sample b coeffs max_itr num_threads degree xresolution yresolution
      startx endx starty endy =
    Some (fold_left
            (fun b '(start_itr, end_itr) =>
               cnr b coeffs max_itr degree xresolution start_itr end_itr
                 startx starty deltax deltay)
            (thread_ranges increments) b,
          INT_MAX) /\
    length (thread_ranges increments) = Z.to_nat num_threads /\
    (forall i s e, thread_ranges increments !! i = Some (s, e) <-> interval_at increments i s e) /\
    (forall b' s e,
        e <= s ->
        cnr_trace coeffs max_itr degree xresolution s e startx starty deltax deltay = [] /\
        cnr b' coeffs max_itr degree xresolution s e startx starty deltax deltay = b').
Proof.
  intros Hn Hy. cbv zeta.
  pose proof (iteration_limits_value num_threads yresolution Hn ltac:(lia)) as Hinc.
  eexists. split; [exact Hinc|]. split; [|split; [|split]].
  - unfold sample_newton. now rewrite Hinc.
  - rewrite thread_ranges_length, length_app, length_map, length_seq. simpl. lia.
  - apply thread_ranges_lookup.
  - intros b' s e Hse.
    unfold compute_newton_range_trace, compute_newton_range, for_range.
    replace (Z.to_nat (e - s)) with 0%nat by lia. split; reflexivity.
Qed.

(** C7.  Whatever its arguments and whatever the threads did,
    [sample_newton] ends by storing [INT_MAX] through [limit]; it returns
    whenever the division [yresolution / num_threads] is defined. *)
Theorem sample_newton_limit (b : buffers) (coeffs : Z -> D)
    (max_itr degree xresolution yresolution num_threads : Z)
    (startx endx starty endy : D) :
  (num_threads <> 0 -> ~ (yresolution = INT_MIN /\ num_threads = -1) ->
   exists b', sample b coeffs max_itr num_threads degree xresolution yresolution
                startx endx starty endy = Some (b', INT_MAX)) /\
  (forall out,
      sample b coeffs max_itr num_threads degree xresolution yresolution
        startx endx starty endy = Some out -> snd out = INT_MAX) /\
  (forall out,
      sample_run b coeffs max_itr num_threads degree xresolution yresolution
        startx endx starty endy out -> snd out = INT_MAX).
Proof.
  split; [|split].
  - intros Hn Hmin. unfold sample_newton, iteration_limits, int_div.
    destruct (Z.eqb_spec num_threads 0) as [|_]; [contradiction|].
    destruct (Z.eqb_spec yresolution INT_MIN), (Z.eqb_spec num_threads (-1));
      simpl; try tauto; eauto.
  - unfold sample_newton. intros out.
    destruct (iteration_limits num_threads yresolution); [|discriminate].
    now intros [= <-].
  - intros out (increments & tr & _ & _ & ->). reflexivity.
Qed.

(** *** Mandelbrot [iterate] *)

Local Abbreviation iter_loop := (iterate_loop d_2 d_lt c_add c_mul c_abs).
Local Abbreviation iter := (iterate d_2 d_lt c_add c_mul c_abs).
Local Abbreviation orb := (orbit c_add c_mul).
Local Abbreviation esc := (escaped d_2 d_lt c_abs).

Lemma orbit_S c x k : orb c (c_add (c_mul x x) c) k = orb c x (S k).
Proof. unfold orbit. now rewrite Nat.iter_succ_r. Qed.

Lemma iterate_loop_outcomes n itr x c max_itr :
  (exists k, (k < n)%nat /\ iter_loop n itr x c max_itr = itr + Z.of_nat k /\
             esc (orb c x k) = true /\
             forall j, (j < k)%nat -> esc (orb c x j) = false) \/
  (iter_loop n itr x c max_itr = max_itr /\
   forall j, (j < n)%nat -> esc (orb c x j) = false).
Proof.
  revert itr x. induction n as [|n IH]; intros itr x.
  - right. split; [reflexivity|]. intros j Hj. lia.
  - simpl. fold (esc x). destruct (esc x) eqn:Hx.
    + left. exists 0%nat. split; [lia|]. split; [lia|]. split; [exact Hx|].
      intros j Hj. lia.
    + assert (Hshift : forall k,
                 (forall j, (j < k)%nat -> esc (orb c (c_add (c_mul x x) c) j) = false) ->
                 forall j, (j < S k)%nat -> esc (orb c x j) = false).
      { intros k Hk [|j] Hj; [exact Hx|]. rewrite <- orbit_S. apply Hk. lia. }
      destruct (IH (itr + 1) (c_add (c_mul x x) c)) as [(k & Hk & Hr & He & Hb)|[Hr Hb]].
      * left. exists (S k). rewrite <- orbit_S. split; [lia|]. split; [lia|].
        split; [exact He|]. apply Hshift, Hb.
      * right. split; [exact Hr|]. apply Hshift, Hb.
Qed.

(** C8.  From [x = 0], [iterate] returns the number [k] of steps
    [x <- x*x + c] after which [abs(x) > 2] first holds, when [k <
    max_itr], and [max_itr] otherwise; the count lies between 0 and
    [max_itr]; for [c = 0] (where the orbit stays at 0) it is [max_itr],
    and for [c = 2+2i] (where the first step escapes) it is at most 1. *)
Theorem iterate_escape_count (c : C) (max_itr : Z) :
  0 <= max_itr ->
  let zero := complex d_0 d_0 in
  let n := iter zero c max_itr in
  0 <= n <= max_itr /\
  ((exists k, Z.of_nat k < max_itr /\ n = Z.of_nat k /\
              esc (orb c zero k) = true /\
              forall j, (j < k)%nat -> esc (orb c zero j) = false) \/
   (n = max_itr /\ forall j, Z.of_nat j < max_itr -> esc (orb c zero j) = false)) /\
  (c_add (c_mul zero zero) zero = zero -> esc zero = false ->
   iter zero zero max_itr = max_itr) /\
  (esc zero = false -> esc (c_add (c_mul zero zero) (complex d_2 d_2)) = true ->
   0 <= iter zero (complex d_2 d_2) max_itr <= 1).
Proof.
  intros Hmax. cbv zeta. unfold iterate.
  split; [|split; [|split]].
  - destruct (iterate_loop_outcomes (Z.to_nat max_itr) 0 (complex d_0 d_0) c max_itr)
      as [(k & Hk & -> & _)|[-> _]]; lia.
  - destruct (iterate_loop_outcomes (Z.to_nat max_itr) 0 (complex d_0 d_0) c max_itr)
      as [(k & Hk & Hr & He & Hb)|[Hr Hb]].
    + left. exists k. split; [lia|]. split; [lia|]. auto.
    + right. split; [exact Hr|]. intros j Hj. apply Hb. lia.
  - intros Hfix Hesc.
    destruct (iterate_loop_outcomes (Z.to_nat max_itr) 0 (complex d_0 d_0)
                (complex d_0 d_0) max_itr)
      as [(k & Hk & Hr & He & Hb)|[Hr Hb]]; [|exact Hr].
    assert (Horb : forall j, orb (complex d_0 d_0) (complex d_0 d_0) j = complex d_0 d_0).
    { induction j as [|j IHj]; [reflexivity|]. unfold orbit in *. simpl.
      now rewrite IHj. }
    rewrite Horb, Hesc in He. discriminate.
  - intros Hesc0 Hesc1.
    destruct (Z.to_nat max_itr) as [|[|m]] eqn:E; simpl.
    + lia.
    + fold (esc (complex d_0 d_0)). rewrite Hesc0. lia.
    + fold (esc (complex d_0 d_0)). rewrite Hesc0.
      fold (esc (c_add (c_mul (complex d_0 d_0) (complex d_0 d_0)) (complex d_2 d_2))).
      rewrite Hesc1. lia.
Qed.

End Properties.

(** ** [assign_roots] *)

Section RootAssignment.

Context {D C : Type}.
Variables (d_0 d_inf : D).
Variables (d_lt d_eq : D -> D -> bool).
Variable complex : D -> D -> C.
Variable c_sub : C -> C -> C.
Variable c_abs : C -> D.

Local Abbreviation assign := (assign_roots d_0 d_inf d_lt d_eq complex c_sub c_abs).
Local Abbreviation roots_of := (root_list complex).

Lemma root_list_map (roots_re roots_im : Z -> D) (degree : Z) :
  roots_of roots_re roots_im degree =
  map (fun k => complex (roots_re (Z.of_nat k)) (roots_im (Z.of_nat k)))
    (seq 0 (Z.to_nat degree)).
Proof.
  unfold root_list, for_range.
  rewrite (for_loop_append (fun k => [complex (roots_re k) (roots_im k)])).
  simpl. rewrite concat_map_singleton, Z.sub_0_r. reflexivity.
Qed.

(** What [assign_roots] leaves in a cell of [index]. *)
Lemma assign_roots_lookup (index : gmap (Z * Z) Z) (re im : gmap (Z * Z) D)
    (roots_re roots_im : Z -> D) (degree xresolution yresolution : Z) (rc : Z * Z) :
  assign index re im roots_re roots_im degree xresolution yresolution !! rc =
  if decide (0 <= fst rc < yresolution /\ 0 <= snd rc < xresolution)
  then
    Some (if not_converged d_inf d_eq (load d_0 re rc) (load d_0 im rc) then -1
          else
            match roots_of roots_re roots_im degree with
            | [] => -1
            | _ => Z.of_nat (argmin (distances c_sub c_abs
                                       (complex (load d_0 re rc) (load d_0 im rc))
                                       (roots_of roots_re roots_im degree)) d_lt)
            end)
  else index !! rc.
Proof.
  unfold assign_roots, for_range. cbv zeta.
  rewrite (grid_insert_lookup
             (fun itr jtr =>
                if not_converged d_inf d_eq (load d_0 re (itr, jtr)) (load d_0 im (itr, jtr))
                then -1
                else
                  match roots_of roots_re roots_im degree with
                  | [] => -1
                  | _ => Z.of_nat (argmin (distances c_sub c_abs
                                             (complex (load d_0 re (itr, jtr))
                                                      (load d_0 im (itr, jtr)))
                                             (roots_of roots_re roots_im degree)) d_lt)
                  end)).
  destruct rc as [r c]. simpl fst. simpl snd. rewrite !Z.sub_0_r.
  repeat case_decide; try reflexivity; lia.
Qed.

(** C9.  [argmin] returns the position of the first least element of a
    non-empty range on which the comparison is a strict weak order.
    [assign_roots] reads the value [v_re + i v_im] of every pixel of the
    grid from the buffers [re] and [im]: a pixel that did not converge
    (both parts infinite) is given the reserved index [-1], and so is
    every pixel when the root list is empty; any other pixel is given the
    position [argmin] finds among the distances from its value to the
    roots, which is a root at least distance and the first of them in the
    list.  Cells outside the grid are left as they were. *)
Theorem assign_roots_nearest_first :
  (forall (A : Type) (comp : A -> A -> bool) (range : list A),
      range <> [] -> strict_weak_on comp range = true ->
      exists v,
        range !! argmin range comp = Some v /\
        (forall j x, range !! j = Some x -> comp x v = false) /\
        (forall j x, (j < argmin range comp)%nat -> range !! j = Some x ->
                     comp v x = true)) /\
  (forall (index : gmap (Z * Z) Z) (re im : gmap (Z * Z) D) (roots_re roots_im : Z -> D)
          (degree xresolution yresolution r c : Z) (v_re v_im : D),
      0 <= r < yresolution -> 0 <= c < xresolution ->
      re !! (r, c) = Some v_re -> im !! (r, c) = Some v_im ->
      let value := complex v_re v_im in
      let roots :=
        map (fun k => complex (roots_re (Z.of_nat k)) (roots_im (Z.of_nat k)))
          (seq 0 (Z.to_nat degree)) in
      let dist root := c_abs (c_sub value root) in
      let i := argmin (map dist roots) d_lt in
      let assigned :=
        assign index re im roots_re roots_im degree xresolution yresolution !! (r, c) in
      (d_eq v_re d_inf && d_eq v_im d_inf = true -> assigned = Some (-1)) /\
      (degree <= 0 -> assigned = Some (-1)) /\
      (d_eq v_re d_inf && d_eq v_im d_inf = false -> 1 <= degree ->
       assigned = Some (Z.of_nat i) /\
       (strict_weak_on d_lt (map dist roots) = true ->
        exists root_i,
          roots !! i = Some root_i /\
          (forall j root_j, roots !! j = Some root_j ->
                            d_lt (dist root_j) (dist root_i) = false) /\
          (forall j root_j, (j < i)%nat -> roots !! j = Some root_j ->
                            d_lt (dist root_i) (dist root_j) = true)))) /\
  (forall (index : gmap (Z * Z) Z) (re im : gmap (Z * Z) D) (roots_re roots_im : Z -> D)
          (degree xresolution yresolution r c : Z),
      ~ (0 <= r < yresolution /\ 0 <= c < xresolution) ->
      assign index re im roots_re roots_im degree xresolution yresolution !! (r, c) =
      index !! (r, c)).
Proof.
  split; [intros A comp range; apply argmin_spec|]. split.
  - intros index re im roots_re roots_im degree xresolution yresolution r c v_re v_im
      Hr Hc Hre Him. cbv zeta.
    rewrite assign_roots_lookup, decide_True by (simpl; lia).
    unfold load, not_converged. rewrite Hre, Him, root_list_map. simpl default.
    set (roots := map (fun k => complex (roots_re (Z.of_nat k)) (roots_im (Z.of_nat k)))
                    (seq 0 (Z.to_nat degree))).
    set (dist := fun root => c_abs (c_sub (complex v_re v_im) root)).
    split; [|split].
    + intros ->. reflexivity.
    + intros Hdeg. subst roots. replace (Z.to_nat degree) with 0%nat by lia. simpl.
      now destruct (d_eq v_re d_inf && d_eq v_im d_inf).
    + intros -> Hdeg.
      assert (Hne : roots <> []).
      { subst roots. destruct (Z.to_nat degree) as [|n] eqn:E; [lia|]. discriminate. }
      split; [destruct roots; [contradiction|reflexivity]|].
      intros Hsw.
      assert (Hne' : map dist roots <> []) by (destruct roots; [contradiction|discriminate]).
      destruct (argmin_spec d_lt (map dist roots) Hne' Hsw) as (v & Hv & Hmin & Hfirst).
      rewrite lookup_map in Hv.
      destruct (roots !! argmin (map dist roots) d_lt) as [root_i|] eqn:Hi; [|discriminate].
      injection Hv as <-. exists root_i. split; [reflexivity|]. split.
      * intros j root_j Hj. apply (Hmin j). now rewrite lookup_map, Hj.
      * intros j root_j Hlt Hj. apply (Hfirst j); [exact Hlt|]. now rewrite lookup_map, Hj.
  - intros index re im roots_re roots_im degree xresolution yresolution r c Hout.
    rewrite assign_roots_lookup, decide_False by exact Hout. reflexivity.
Qed.

End RootAssignment.

(** ** Concrete runs *)

(** [x^2 - 1] from [1.5]: convergence at the fourth iteration, to 1 within
    the tolerance. *)
Example newton_root_converges :
  let r := Binary64.newton_root (Binary64.array_of [-1; 0; 1]%float) (1.5, 0)%float 2 50
             Binary64.d_tol in
  itr_taken r = 4 /\ cerr r = [] /\
  Binary64.d_lt (Binary64.c_abs (Binary64.c_sub (root r) (1, 0)%float)) Binary64.d_tol = true.
Proof. vm_compute. auto. Qed.

(** [x^2 - 1] from [0], where the derivative is zero and the value is not
    small: the sentinel and the report of the starting point. *)
Example newton_root_zero_derivative :
  Binary64.newton_root (Binary64.array_of [-1; 0; 1]%float) (0, 0)%float 2 50 Binary64.d_tol =
  NewtonResult (infinity, infinity) INT_MAX [(0, 0)%float].
Proof. vm_compute. reflexivity. Qed.

(** [x^2 + 1] from [1] with one iteration allowed: the budget runs out. *)
Example newton_root_exhausted :
  Binary64.newton_root (Binary64.array_of [1; 0; 1]%float) (1, 0)%float 2 1 Binary64.d_tol =
  NewtonResult (infinity, infinity) INT_MAX [].
Proof. vm_compute. reflexivity. Qed.

Lemma newton_root_convergence_first_witness :
  1 <= 1 /\
  Binary64.converged (Binary64.array_of [0; 0; 1]%float) 2 Binary64.d_tol (0, 0)%float = true /\
  Binary64.zero_derivative (Binary64.array_of [0; 0; 1]%float) 2 (0, 0)%float = true /\
  Binary64.newton_root (Binary64.array_of [0; 0; 1]%float) (0, 0)%float 2 1 Binary64.d_tol =
  NewtonResult (0, 0)%float 0 [].
Proof.
  split; [lia|]. split; [reflexivity|]. split; [reflexivity|].
  apply (newton_root_convergence_first Binary64.d_0 Binary64.d_inf Binary64.d_lt
           Binary64.complex Binary64.c_add Binary64.c_sub Binary64.c_mul Binary64.c_div
           Binary64.c_add_d Binary64.c_abs Binary64.c_eq);
    [lia|reflexivity].
Defined.

(** C10 as stated fails when no iteration is allowed: with [max_itr = 0] the
    loop body never runs, and a starting point at which the polynomial is
    already below the tolerance is answered by the sentinel. *)
Lemma newton_root_convergence_first_counterexample :
  ~ (forall (coeffs : Z -> float) (x0 : float * float) (degree max_itr : Z) (tol : float),
        Binary64.converged coeffs degree tol x0 = true ->
        Binary64.newton_root coeffs x0 degree max_itr tol = NewtonResult x0 0 []).
Proof.
  intros H.
  specialize (H (Binary64.array_of [0; 0; 1]%float) (0, 0)%float 2 0 Binary64.d_tol eq_refl).
  vm_compute in H. discriminate H.
Qed.

(** A 2 x 3 grid over [[-2, 2] x [-2, 2]] for [x^2 - 1], sampled with one
    and with two threads. *)
Lemma sample_newton_thread_independent_witness :
  (1 <= 1 <= INT_MAX /\ 1 <= 2 <= INT_MAX /\ 1 <= 3 <= INT_MAX) /\
  exists out,
    Binary64.sample_newton Binary64.empty_buffers (Binary64.array_of [-1; 0; 1]%float)
      50 1 2 2 3 (-2)%float 2%float (-2)%float 2%float = Some out /\
    Binary64.sample_newton Binary64.empty_buffers (Binary64.array_of [-1; 0; 1]%float)
      50 2 2 2 3 (-2)%float 2%float (-2)%float 2%float = Some out.
Proof.
  assert (H1 : 1 <= 1 <= INT_MAX) by (unfold INT_MAX; lia).
  assert (H2 : 1 <= 2 <= INT_MAX) by (unfold INT_MAX; lia).
  assert (H3 : 1 <= 3 <= INT_MAX) by (unfold INT_MAX; lia).
  split; [auto|].
  destruct (sample_newton_thread_independent Binary64.d_0 Binary64.d_tol Binary64.d_inf
              Binary64.d_of_int Binary64.d_add Binary64.d_sub Binary64.d_mul Binary64.d_div
              Binary64.d_lt Binary64.complex Binary64.c_real Binary64.c_imag
              Binary64.c_add Binary64.c_sub Binary64.c_mul Binary64.c_div Binary64.c_add_d
              Binary64.c_abs Binary64.c_eq
              Binary64.empty_buffers (Binary64.array_of [-1; 0; 1]%float)
              50 2 2 3 1 2 (-2)%float 2%float (-2)%float 2%float H1 H2 H3)
    as (out & Hone & Htwo & _).
  exists out. split; [exact Hone|exact Htwo].
Defined.

(** Two threads for one row: boundaries [0, 0, 1], and a worker for each
    of the two intervals, the empty one included. *)
Lemma sample_newton_one_worker_per_interval_witness :
  (1 <= 2 <= INT_MAX /\ 1 <= 1 <= INT_MAX) /\
  exists increments,
    iteration_limits 2 1 = Some increments /\
    length (thread_ranges increments) = 2%nat /\
    (forall i s e, thread_ranges increments !! i = Some (s, e) <-> interval_at increments i s e).
Proof.
  assert (H1 : 1 <= 2 <= INT_MAX) by (unfold INT_MAX; lia).
  assert (H2 : 1 <= 1 <= INT_MAX) by (unfold INT_MAX; lia).
  split; [auto|].
  destruct (sample_newton_one_worker_per_interval Binary64.d_0 Binary64.d_tol Binary64.d_inf
              Binary64.d_of_int Binary64.d_add Binary64.d_sub Binary64.d_mul Binary64.d_div
              Binary64.d_lt Binary64.complex Binary64.c_real Binary64.c_imag
              Binary64.c_add Binary64.c_sub Binary64.c_mul Binary64.c_div Binary64.c_add_d
              Binary64.c_abs Binary64.c_eq
              Binary64.empty_buffers (Binary64.array_of [-1; 0; 1]%float)
              50 2 2 1 2 (-2)%float 2%float (-2)%float 2%float H1 H2)
    as (increments & Hinc & _ & Hlen & Hlookup & _).
  exists increments. auto.
Defined.

(** C6 as stated fails: with two threads and one row the boundaries are
    [0, 0, 1], and a worker is launched for the empty interval [[0, 0)]
    too; two workers are launched where one interval is not empty. *)
Lemma sample_newton_one_worker_per_interval_counterexample :
  ~ (forall num_threads yresolution increments,
        1 <= num_threads -> 1 <= yresolution ->
        iteration_limits num_threads yresolution = Some increments ->
        forall start_itr end_itr,
          In (start_itr, end_itr) (thread_ranges increments) -> start_itr <> end_itr).
Proof.
  intros H.
  apply (H 2 1 [0; 0; 1] ltac:(lia) ltac:(lia) eq_refl 0 0); [|reflexivity].
  vm_compute. auto.
Qed.

(** A 2 x 2 grid over [[-2, 2] x [-2, 2]] for [x^2 - 1], with two threads:
    the points [-2-2i] and [-2] converge, the point [0] has a zero
    derivative, and no cell outside the grid is stored. *)
Example sample_newton_grid :
  exists out,
    Binary64.sample_newton Binary64.empty_buffers (Binary64.array_of [-1; 0; 1]%float)
      50 2 2 2 2 (-2)%float 2%float (-2)%float 2%float = Some out /\
    snd out = INT_MAX /\
    iterations (fst out) !! (0, 0) = Some 5 /\
    iterations (fst out) !! (1, 0) = Some 4 /\
    re (fst out) !! (1, 0) = Some (-0x1.000000c78c926p+0)%float /\
    iterations (fst out) !! (1, 1) = Some INT_MAX /\
    re (fst out) !! (1, 1) = Some infinity /\
    iterations (fst out) !! (2, 0) = None.
Proof.
  eexists. split; [vm_compute; reflexivity|]. vm_compute. repeat split.
Qed.

(** A worker given the empty interval [[1, 1)] stores nothing. *)
Example compute_newton_range_empty_interval :
  Binary64.compute_newton_range Binary64.empty_buffers (Binary64.array_of [-1; 0; 1]%float)
    50 2 2 1 1 (-2)%float (-2)%float 2%float 2%float = Binary64.empty_buffers.
Proof. reflexivity. Qed.

(** The orbit of [0] never leaves [0]; the orbit of [2+2i] has left the
    disc of radius 2 after one step. *)
Lemma iterate_escape_count_witness :
  0 <= 50 /\
  Binary64.iterate (0, 0)%float (0, 0)%float 50 = 50 /\
  0 <= Binary64.iterate (0, 0)%float (2, 2)%float 50 <= 1.
Proof.
  assert (H : 0 <= 50) by lia.
  split; [exact H|].
  destruct (iterate_escape_count Binary64.d_0 Binary64.d_2 Binary64.d_lt Binary64.complex
              Binary64.c_add Binary64.c_mul Binary64.c_abs (2, 2)%float 50 H)
    as (_ & _ & Hzero & Hescape).
  split; [apply Hzero; reflexivity|apply Hescape; reflexivity].
Defined.

Example iterate_two_plus_two_i : Binary64.iterate (0, 0)%float (2, 2)%float 50 = 1.
Proof. vm_compute. reflexivity. Qed.

(** C3 as stated fails on binary64 numbers: for [1 + 2^53 x + x^2] at
    [x = 3] the pass rounds [3 + 2^53] to [2^53 + 4], and returns
    [3 * 2^53 + 12] where the polynomial has the value [3 * 2^53 + 10],
    and [2^53 + 8] where its derivative has the value [2^53 + 6]; the sum
    of the terms [coeffs[i] * x^i] computed in binary64 arithmetic,
    [3 * 2^53 + 8], is not returned either. *)
Lemma polynomial_and_deriv_horner_counterexample :
  ~ (forall (x : float * float) (coeffs : list float) (degree : Z),
        0 <= degree -> length coeffs = S (Z.to_nat degree) ->
        forallb Binary64.is_integer (fst x :: snd x :: coeffs) = true ->
        let result := Binary64.polynomial_and_deriv x (Binary64.array_of coeffs) degree in
        Binary64.exact_value (fst result) =
        poly_value Binary64.d_0 Binary64.exact_complex Gauss.c_one Gauss.c_add Gauss.c_mul
          (Binary64.array_of coeffs) degree (Binary64.exact_value x) /\
        Binary64.exact_value (snd result) =
        poly_deriv_value Binary64.d_0 Binary64.exact_complex Gauss.c_one Gauss.c_add
          Gauss.c_mul (Binary64.array_of coeffs) degree (Binary64.exact_value x)) /\
  ~ (forall (x : float * float) (coeffs : list float) (degree : Z),
        0 <= degree -> length coeffs = S (Z.to_nat degree) ->
        Binary64.polynomial_and_deriv x (Binary64.array_of coeffs) degree =
        (poly_value Binary64.d_0 Binary64.complex Binary64.c_one Binary64.c_add
           Binary64.c_mul (Binary64.array_of coeffs) degree x,
         poly_deriv_value Binary64.d_0 Binary64.complex Binary64.c_one Binary64.c_add
           Binary64.c_mul (Binary64.array_of coeffs) degree x)).
Proof.
  split; intros H.
  - specialize (H (3, 0)%float [1; 0x1p53; 1]%float 2 ltac:(lia) eq_refl eq_refl).
    vm_compute in H. destruct H as [H _]. discriminate H.
  - specialize (H (3, 0)%float [1; 0x1p53; 1]%float 2 ltac:(lia) eq_refl).
    vm_compute in H. discriminate H.
Qed.

(** The values of that run: what the pass returns, what the polynomial and
    its derivative are worth, and that all of them are integers. *)
Example polynomial_and_deriv_rounds :
  Binary64.polynomial_and_deriv (3, 0)%float (Binary64.array_of [1; 0x1p53; 1]%float) 2 =
  ((27021597764222988, 0)%float, (9007199254741000, 0)%float) /\
  forallb Binary64.is_integer
    [3; 0; 1; 0x1p53; 27021597764222988; 9007199254741000]%float = true /\
  map Binary64.integer_value [3; 0; 1; 0x1p53; 27021597764222988; 9007199254741000]%float =
  [3; 0; 1; 2 ^ 53; 3 * 2 ^ 53 + 12; 2 ^ 53 + 8] /\
  poly_value 0 Gauss.complex Gauss.c_one Gauss.c_add Gauss.c_mul
    (Gauss.array_of [1; 2 ^ 53; 1]) 2 (3, 0) = (3 * 2 ^ 53 + 10, 0) /\
  poly_deriv_value 0 Gauss.complex Gauss.c_one Gauss.c_add Gauss.c_mul
    (Gauss.array_of [1; 2 ^ 53; 1]) 2 (3, 0) = (2 ^ 53 + 6, 0).
Proof. vm_compute. auto. Qed.

(** With the coefficients [-2^53, 1, 2^53] at [x = 1] the polynomial is
    worth [1] and the pass returns [0]. *)
Example polynomial_and_deriv_cancels :
  Binary64.polynomial_and_deriv (1, 0)%float
    (Binary64.array_of [-0x1p53; 1; 0x1p53]%float) 2 =
  ((0, 0)%float, (18014398509481984, 0)%float) /\
  poly_value 0 Gauss.complex Gauss.c_one Gauss.c_add Gauss.c_mul
    (Gauss.array_of [- 2 ^ 53; 1; 2 ^ 53]) 2 (1, 0) = (1, 0).
Proof. vm_compute. auto. Qed.

(** A pixel whose value is [-1 + 0i], with the roots [1] and [-1]: the
    pixel converged, the distances [2] and [0] are strictly ordered, and
    the second root is assigned. *)
Lemma assign_roots_nearest_first_witness :
  (0 <= 0 < 1 /\ 1 <= 2) /\
  Binary64.d_eq (-1)%float Binary64.d_inf && Binary64.d_eq 0%float Binary64.d_inf = false /\
  strict_weak_on Binary64.d_lt [2; 0]%float = true /\
  Binary64.assign_roots ∅ {[ (0, 0) := (-1)%float ]} {[ (0, 0) := 0%float ]}
    (Binary64.array_of [1; -1]%float) (Binary64.array_of [0; 0]%float) 2 1 1 !! (0, 0) =
  Some 1 /\
  exists root_i,
    [(1, 0); (-1, 0)]%float !! 1%nat = Some root_i /\
    (forall j root_j, [(1, 0); (-1, 0)]%float !! j = Some root_j ->
       Binary64.d_lt (Binary64.c_abs (Binary64.c_sub (-1, 0)%float root_j))
                     (Binary64.c_abs (Binary64.c_sub (-1, 0)%float root_i)) = false) /\
    (forall j root_j, (j < 1)%nat -> [(1, 0); (-1, 0)]%float !! j = Some root_j ->
       Binary64.d_lt (Binary64.c_abs (Binary64.c_sub (-1, 0)%float root_i))
                     (Binary64.c_abs (Binary64.c_sub (-1, 0)%float root_j)) = true).
Proof.
  assert (Hr : 0 <= 0 < 1) by lia.
  assert (Hdeg : 1 <= 2) by lia.
  assert (Hconv : Binary64.d_eq (-1)%float Binary64.d_inf &&
                  Binary64.d_eq 0%float Binary64.d_inf = false) by reflexivity.
  assert (Hsw : strict_weak_on Binary64.d_lt [2; 0]%float = true) by reflexivity.
  assert (Hre : ({[ (0, 0) := (-1)%float ]} : gmap (Z * Z) float) !! (0, 0) =
                Some (-1)%float) by (vm_compute; reflexivity).
  assert (Him : ({[ (0, 0) := 0%float ]} : gmap (Z * Z) float) !! (0, 0) = Some 0%float)
    by (vm_compute; reflexivity).
  split; [auto|]. split; [exact Hconv|]. split; [exact Hsw|].
  destruct (proj1 (proj2 (assign_roots_nearest_first Binary64.d_0 Binary64.d_inf
                            Binary64.d_lt Binary64.d_eq Binary64.complex
                            Binary64.c_sub Binary64.c_abs))
              ∅ {[ (0, 0) := (-1)%float ]} {[ (0, 0) := 0%float ]}
              (Binary64.array_of [1; -1]%float) (Binary64.array_of [0; 0]%float)
              2 1 1 0 0 (-1)%float 0%float Hr Hr Hre Him)
    as (_ & _ & Hnear).
  destruct (Hnear Hconv Hdeg) as [Hassigned Hfirst].
  split; [exact Hassigned|]. exact (Hfirst Hsw).
Defined.

(** A pixel whose value is [1 + 0i], with the same roots: the first root
    is assigned. *)
Example assign_roots_first_root :
  Binary64.assign_roots ∅ {[ (0, 0) := 1%float ]} {[ (0, 0) := 0%float ]}
    (Binary64.array_of [1; -1]%float) (Binary64.array_of [0; 0]%float) 2 1 1 !! (0, 0) =
  Some 0.
Proof. vm_compute. reflexivity. Qed.

(** A pixel whose value is [0], at the same distance from [1] and [-1]: the
    lower position wins. *)
Example assign_roots_tie :
  Binary64.assign_roots ∅ {[ (0, 0) := 0%float ]} {[ (0, 0) := 0%float ]}
    (Binary64.array_of [1; -1]%float) (Binary64.array_of [0; 0]%float) 2 1 1 !! (0, 0) =
  Some 0.
Proof. vm_compute. reflexivity. Qed.

(** A pixel that did not converge is given the reserved index, and so is a
    converged pixel when there is no root. *)
Example assign_roots_not_converged :
  Binary64.assign_roots ∅ {[ (0, 0) := infinity ]} {[ (0, 0) := infinity ]}
    (Binary64.array_of [1; -1]%float) (Binary64.array_of [0; 0]%float) 2 1 1 !! (0, 0) =
  Some (-1).
Proof. vm_compute. reflexivity. Qed.

Example assign_roots_no_root :
  Binary64.assign_roots ∅ {[ (0, 0) := 1%float ]} {[ (0, 0) := 0%float ]}
    (Binary64.array_of []) (Binary64.array_of []) 0 1 1 !! (0, 0) =
  Some (-1).
Proof. vm_compute. reflexivity. Qed.

Example argmin_first_of_equals : argmin [3; 1; 2; 1] Z.ltb = 1%nat.
Proof. reflexivity. Qed.

Example argmin_empty : argmin (@nil Z) Z.ltb = 0%nat.
Proof. reflexivity. Qed.

(** * Further properties of the code *)

(** ** [zip] *)

(** X1.  [zip] stops at the end of the shorter range: it writes as many
    values as the shorter range has elements, and the value at position
    [i] is built from the elements at position [i] of the two ranges. *)
Theorem zip_shorter_range {A Zipped : Type} (zipped : A -> A -> Zipped) (range1 range2 : list A) :
  length (zip zipped range1 range2) = Nat.min (length range1) (length range2) /\
  (forall i, zip zipped range1 range2 !! i =
             match range1 !! i, range2 !! i with
             | Some a, Some b => Some (zipped a b)
             | _, _ => None
             end).
Proof.
  revert range2. induction range1 as [|a range1 IH]; intros [|b range2]; simpl.
  - split; [reflexivity|]. intros i. reflexivity.
  - split; [reflexivity|]. intros i. reflexivity.
  - split; [reflexivity|]. intros i. rewrite lookup_nil. now destruct ((a :: range1) !! i).
  - destruct (IH range2) as [Hlen Hlook]. split; [now rewrite Hlen|].
    intros [|i]; simpl; [reflexivity|apply Hlook].
Qed.

(** ** [argmin] under any comparison *)

Lemma min_element_loop_later {A : Type} (comp : A -> A -> bool) (rest pre : list A)
    (smallest : nat) (sv : A) :
  pre !! smallest = Some sv ->
  (forall j x, (smallest < j)%nat -> pre !! j = Some x -> comp x sv = false) ->
  let i := min_element_loop comp rest (length pre) smallest sv in
  (smallest <= i < length (pre ++ rest))%nat /\
  exists v, (pre ++ rest) !! i = Some v /\
    (forall j x, (i < j)%nat -> (pre ++ rest) !! j = Some x -> comp x v = false).
Proof.
  cbv zeta. revert pre smallest sv.
  induction rest as [|a rest IH]; intros pre s sv Hs Hlater.
  - simpl. rewrite app_nil_r. pose proof (lookup_lt_Some _ _ _ Hs). split; [lia|]. eauto.
  - simpl. pose proof (lookup_lt_Some _ _ _ Hs) as Hslt.
    assert (Hlen : length (pre ++ [a]) = S (length pre))
      by (rewrite length_app; simpl; lia).
    replace (pre ++ a :: rest) with ((pre ++ [a]) ++ rest) by (now rewrite <- app_assoc).
    rewrite <- Hlen.
    destruct (comp a sv) eqn:Hc.
    + destruct (IH (pre ++ [a]) (length pre) a) as [Hi Hv].
      * rewrite lookup_app_r by lia. now rewrite Nat.sub_diag.
      * intros j x Hj Hx. apply lookup_lt_Some in Hx. lia.
      * split; [lia|exact Hv].
    + apply IH.
      * rewrite lookup_app_l by lia. exact Hs.
      * intros j x Hj Hx. destruct (decide (j < length pre)%nat).
        -- rewrite lookup_app_l in Hx by lia. eauto.
        -- rewrite lookup_app_r in Hx by lia.
           destruct (j - length pre)%nat; [|discriminate]. now injection Hx as <-.
Qed.

(** X2.  Whatever the comparison (it need not be an order: think of [<]
    on distances that are not numbers), [argmin] of a non-empty range is a
    position of the range, and no element after it compares below the
    element it designates; on an empty range [argmin] is 0, which is not a
    position of the range. *)
Theorem argmin_any_comparison {A : Type} (comp : A -> A -> bool) (range : list A) :
  (range = [] -> argmin range comp = 0%nat) /\
  (range <> [] ->
   (argmin range comp < length range)%nat /\
   exists v, range !! argmin range comp = Some v /\
     forall j x, (argmin range comp < j)%nat -> range !! j = Some x -> comp x v = false).
Proof.
  split; [intros ->; reflexivity|]. intros Hne.
  destruct range as [|a rest]; [congruence|]. unfold argmin, min_element.
  destruct (min_element_loop_later comp rest [a] 0%nat a) as [Hi Hv].
  - reflexivity.
  - intros j x Hj Hx. apply lookup_lt_Some in Hx. simpl in Hx. lia.
  - split; [apply Hi|exact Hv].
Qed.

(** ** The widths of the intervals of [iteration_limits] *)

(** X3.  For [num_threads >= 1] and [yresolution >= 0], every interval but
    the last is [yresolution / num_threads] rows wide, and the last one
    takes the remainder of the division as well. *)
Theorem iteration_limits_widths (num_threads yresolution : Z) :
  1 <= num_threads <= INT_MAX -> 0 <= yresolution <= INT_MAX ->
  exists out,
    iteration_limits num_threads yresolution = Some out /\
    forall i a b, interval_at out i a b ->
      (Z.of_nat (S i) < num_threads -> b - a = yresolution ÷ num_threads) /\
      (Z.of_nat (S i) = num_threads ->
       b - a = yresolution ÷ num_threads + Z.rem yresolution num_threads).
Proof.
  intros Hn Hy. eexists. split; [apply iteration_limits_value; lia|].
  intros i a b [Hi [-> ->]]%interval_at_boundaries.
  pose proof (Z.quot_rem' yresolution num_threads) as Hqr.
  destruct (Nat.ltb_spec (S i) (Z.to_nat num_threads)); split; intros Hi'; try lia.
Qed.

Lemma iteration_limits_widths_witness :
  exists out,
    iteration_limits 3 10 = Some out /\
    forall i a b, interval_at out i a b ->
      (Z.of_nat (S i) < 3 -> b - a = 3) /\ (Z.of_nat (S i) = 3 -> b - a = 3 + 1).
Proof.
  apply (iteration_limits_widths 3 10); unfold INT_MAX; lia.
Defined.

(** X4.  With more threads than rows the division gives 0: every interval
    but the last is the empty [[0, 0)], and the last interval is the whole
    grid [[0, yresolution)], so one worker gets all the rows. *)
Theorem iteration_limits_more_threads_than_rows (num_threads yresolution : Z) :
  0 <= yresolution < num_threads -> num_threads <= INT_MAX ->
  exists out,
    iteration_limits num_threads yresolution = Some out /\
    forall i a b, interval_at out i a b ->
      a = 0 /\
      (Z.of_nat (S i) < num_threads -> b = 0) /\
      (Z.of_nat (S i) = num_threads -> b = yresolution).
Proof.
  intros Hy Hn. eexists. split; [apply iteration_limits_value; lia|].
  rewrite Z.quot_small by lia.
  intros i a b [Hi [-> ->]]%interval_at_boundaries.
  destruct (Nat.ltb_spec (S i) (Z.to_nat num_threads)); repeat split; lia.
Qed.

Lemma iteration_limits_more_threads_than_rows_witness :
  exists out,
    iteration_limits 4 2 = Some out /\
    forall i a b, interval_at out i a b ->
      a = 0 /\ (Z.of_nat (S i) < 4 -> b = 0) /\ (Z.of_nat (S i) = 4 -> b = 2).
Proof.
  apply (iteration_limits_more_threads_than_rows 4 2); unfold INT_MAX; lia.
Defined.

Lemma iteration_limits_defined (num_threads yresolution : Z) :
  num_threads <> 0 -> ~ (yresolution = INT_MIN /\ num_threads = -1) ->
  exists out,
    iteration_limits num_threads yresolution = Some out /\
    (num_threads < 0 -> out = [yresolution]).
Proof.
  intros Hn Hmin. unfold iteration_limits, int_div.
  destruct (Z.eqb_spec num_threads 0) as [|_]; [contradiction|].
  assert (E : (yresolution =? INT_MIN) && (num_threads =? -1) = false).
  { destruct (Z.eqb_spec yresolution INT_MIN), (Z.eqb_spec num_threads (-1)); simpl; tauto. }
  rewrite E. simpl. eexists. split; [reflexivity|].
  intros Hneg. unfold for_range. replace (Z.to_nat (num_threads - 0)) with 0%nat by lia.
  reflexivity.
Qed.

(** X5.  When the division is defined, [iteration_limits] always returns,
    with [max(num_threads, 0) + 1] boundaries of which the last is
    [yresolution]; for a negative [num_threads] the loop does not run and
    [yresolution] is the only boundary. *)
Theorem iteration_limits_any_thread_count (num_threads yresolution : Z) :
  num_threads <> 0 -> ~ (yresolution = INT_MIN /\ num_threads = -1) ->
  exists out,
    iteration_limits num_threads yresolution = Some out /\
    length out = S (Z.to_nat num_threads) /\
    last out = Some yresolution /\
    (num_threads < 0 -> out = [yresolution]).
Proof.
  intros Hn Hmin. unfold iteration_limits, int_div.
  destruct (Z.eqb_spec num_threads 0) as [|_]; [contradiction|].
  assert (E : (yresolution =? INT_MIN) && (num_threads =? -1) = false).
  { destruct (Z.eqb_spec yresolution INT_MIN), (Z.eqb_spec num_threads (-1)); simpl; tauto. }
  rewrite E. simpl. eexists. split; [reflexivity|].
  unfold for_range. rewrite (for_loop_append (fun k => [int_mul _ k])), Z.sub_0_r.
  simpl. rewrite concat_map_singleton.
  split; [|split].
  - rewrite length_app, length_map, length_seq. simpl. lia.
  - apply last_snoc.
  - intros Hneg. replace (Z.to_nat num_threads) with 0%nat by lia. reflexivity.
Qed.

Lemma iteration_limits_any_thread_count_witness :
  exists out,
    iteration_limits (-2) 5 = Some out /\
    length out = 1%nat /\ last out = Some 5 /\ (-2 < 0 -> out = [5]).
Proof.
  apply (iteration_limits_any_thread_count (-2) 5); [lia|].
  intros [H _]. discriminate H.
Defined.

(** ** The threads launched by [sample_newton] *)

(** X6.  Whatever the boundaries, as long as there is at least one, the
    launch loop of [sample_newton] creates one thread less than there are
    boundaries, and each thread ends where the next one starts. *)
Theorem thread_ranges_adjacent (increments : list Z) :
  increments <> [] ->
  length (thread_ranges increments) = (length increments - 1)%nat /\
  (forall i s e s' e',
      thread_ranges increments !! i = Some (s, e) ->
      thread_ranges increments !! S i = Some (s', e') -> e = s').
Proof.
  intros _. split; [apply thread_ranges_length|].
  intros i s e s' e' [_ He]%thread_ranges_lookup [Hs' _]%thread_ranges_lookup.
  congruence.
Qed.

Lemma thread_ranges_adjacent_witness :
  [0; 3; 6; 10] <> [] /\
  length (thread_ranges [0; 3; 6; 10]) = 3%nat /\
  (forall i s e s' e',
      thread_ranges [0; 3; 6; 10] !! i = Some (s, e) ->
      thread_ranges [0; 3; 6; 10] !! S i = Some (s', e') -> e = s').
Proof.
  assert (H : [0; 3; 6; 10] <> []) by discriminate.
  split; [exact H|]. exact (thread_ranges_adjacent [0; 3; 6; 10] H).
Defined.

(** ** Newton sampling, over every implementation of the arithmetic *)

Lemma quot_mul_ge (y n k : Z) :
  y <= 0 -> 1 <= n -> 0 <= k <= n -> y <= (y ÷ n) * k <= 0.
Proof.
  intros Hy Hn Hk. replace y with (- - y) at 2 3 by lia.
  rewrite Z.quot_opp_l by lia.
  pose proof (quot_mul_le (- y) n k ltac:(lia) Hn Hk). lia.
Qed.

Lemma iteration_limits_value_nonpos num_threads yresolution :
  1 <= num_threads <= INT_MAX -> INT_MIN <= yresolution <= 0 ->
  iteration_limits num_threads yresolution =
  Some (map (fun k => (yresolution ÷ num_threads) * Z.of_nat k) (seq 0 (Z.to_nat num_threads))
          ++ [yresolution]).
Proof.
  intros Hn Hy. unfold iteration_limits, int_div.
  destruct (Z.eqb_spec num_threads 0); [lia|].
  destruct (Z.eqb_spec num_threads (-1)); [lia|]. rewrite andb_false_r. simpl.
  unfold for_range. rewrite (for_loop_append (fun k => [int_mul _ k])).
  simpl. do 2 f_equal. rewrite Z.sub_0_r, concat_map_singleton.
  apply map_ext_in. intros k Hk. apply in_seq in Hk.
  unfold int_mul. apply wrap_int_id.
  pose proof (quot_mul_ge yresolution num_threads (Z.of_nat k)).
  unfold int_range, INT_MIN, INT_MAX in *. lia.
Qed.

Section FurtherProperties.

Context {D C : Type}.
Variables (d_0 d_2 d_tol d_inf : D).
Variable d_of_int : Z -> D.
Variables (d_add d_sub d_mul d_div : D -> D -> D).
Variable d_lt : D -> D -> bool.
Variable complex : D -> D -> C.
Variables (c_real c_imag : C -> D).
Variables (c_add c_sub c_mul c_div : C -> C -> C).
Variable c_add_d : C -> D -> C.
Variable c_abs : C -> D.
Variable c_eq : C -> C -> bool.

Local Abbreviation pd := (polynomial_and_deriv d_0 complex c_add c_mul c_add_d).
Local Abbreviation nloop :=
  (newton_loop d_0 d_inf d_lt complex c_add c_sub c_mul c_div c_add_d c_abs c_eq).
Local Abbreviation nroot :=
  (newton_root d_0 d_inf d_lt complex c_add c_sub c_mul c_div c_add_d c_abs c_eq).
Local Abbreviation conv := (converged d_0 d_lt complex c_add c_mul c_add_d c_abs).
Local Abbreviation zderiv := (zero_derivative d_0 complex c_add c_mul c_add_d c_eq).
Local Abbreviation c_inf := (c_infinity d_inf complex).
Local Abbreviation cnr :=
  (compute_newton_range d_0 d_tol d_inf d_of_int d_add d_mul d_lt complex c_real c_imag
     c_add c_sub c_mul c_div c_add_d c_abs c_eq).
Local Abbreviation cell_value :=
  (newton_cell_value d_0 d_tol d_inf d_of_int d_add d_mul d_lt complex c_real c_imag
     c_add c_sub c_mul c_div c_add_d c_abs c_eq).
Local Abbreviation sample :=
  (sample_newton d_0 d_tol d_inf d_of_int d_add d_sub d_mul d_div d_lt complex c_real c_imag
     c_add c_sub c_mul c_div c_add_d c_abs c_eq).

Local Abbreviation cnr_read :=
  (compute_newton_range_read d_0 d_tol d_inf d_of_int d_add d_sub d_mul d_div d_lt complex
     c_real c_imag c_add c_sub c_mul c_div c_add_d c_abs c_eq).

(** *** [newton_root] *)

Lemma newton_root_sound (coeffs : Z -> D) (x0 : C) (degree max_itr : Z) (tol : D) :
  max_itr <= INT_MAX ->
  let r := nroot coeffs x0 degree max_itr tol in
  (itr_taken r <> INT_MAX ->
   0 <= itr_taken r < max_itr /\ conv coeffs degree tol (root r) = true /\ cerr r = []) /\
  (itr_taken r = INT_MAX -> root r = c_inf).
Proof.
  intros Hmax. cbv zeta. unfold newton_root.
  destruct (newton_loop_outcomes d_0 d_inf d_lt complex c_add c_sub c_mul c_div c_add_d c_abs
              c_eq (Z.to_nat max_itr) 0 coeffs x0 x0 degree tol)
    as [(k & Hk & _ & Hc & ->)|[(k & Hk & _ & _ & _ & ->)|(_ & ->)]]; simpl.
  - split; [intros _; repeat split; try lia; exact Hc|]. intros E. lia.
  - split; [congruence|reflexivity].
  - split; [congruence|reflexivity].
Qed.

(** X7.  What the caller can rely on in the result of [newton_root], for
    [max_itr] an [int]: an iteration count other than [INT_MAX] is a count
    below [max_itr], the point returned passes the test [abs(f) < tol] and
    nothing was reported; with the count [INT_MAX] the point returned is
    [(inf, inf)]. *)
Theorem newton_root_result (coeffs : Z -> D) (x0 : C) (degree max_itr : Z) (tol : D) :
  max_itr <= INT_MAX ->
  let r := nroot coeffs x0 degree max_itr tol in
  (itr_taken r <> INT_MAX ->
   0 <= itr_taken r < max_itr /\ conv coeffs degree tol (root r) = true /\ cerr r = []) /\
  (itr_taken r = INT_MAX -> root r = c_inf).
Proof. apply newton_root_sound. Qed.

Lemma newton_loop_more n m itr coeffs init x degree tol :
  let r := nloop n itr coeffs init x degree tol in
  (itr_taken r <> INT_MAX \/ cerr r <> []) ->
  nloop (n + m) itr coeffs init x degree tol = r.
Proof.
  cbv zeta. revert itr x. induction n as [|n IH]; intros itr x Hr.
  - simpl in Hr. destruct Hr; congruence.
  - change (S n + m)%nat with (S (n + m)). rewrite !newton_loop_S in *.
    destruct (conv coeffs degree tol x); [reflexivity|].
    destruct (zderiv coeffs degree x); [reflexivity|]. now apply IH.
Qed.

(** X8.  A larger iteration budget does not change an answer already
    reached: when [newton_root] with [max_itr] converged or met a zero
    derivative, it returns the same result with any [max_itr' >= max_itr]. *)
Theorem newton_root_larger_budget (coeffs : Z -> D) (x0 : C) (degree max_itr max_itr' : Z)
    (tol : D) :
  max_itr <= max_itr' ->
  let r := nroot coeffs x0 degree max_itr tol in
  (itr_taken r <> INT_MAX \/ cerr r <> []) ->
  nroot coeffs x0 degree max_itr' tol = r.
Proof.
  intros Hle. cbv zeta. unfold newton_root. intros Hr.
  replace (Z.to_nat max_itr') with (Z.to_nat max_itr + (Z.to_nat max_itr' - Z.to_nat max_itr))%nat
    by lia.
  now apply newton_loop_more.
Qed.

(** X9.  A constant polynomial ([degree = 0]) is settled in the first
    iteration, when one is allowed: its value is [coeffs[0]] and its
    derivative is zero at every point, so [newton_root] returns the
    starting point with count 0 when [abs(coeffs[0]) < tol], and reports a
    zero derivative otherwise. *)
Theorem newton_root_constant_polynomial (coeffs : Z -> D) (x0 : C) (max_itr : Z) (tol : D) :
  1 <= max_itr ->
  c_eq (complex d_0 d_0) (complex d_0 d_0) = true ->
  pd x0 coeffs 0 = (complex (coeffs 0) d_0, complex d_0 d_0) /\
  nroot coeffs x0 0 max_itr tol =
  if d_lt (c_abs (complex (coeffs 0) d_0)) tol
  then NewtonResult x0 0 []
  else NewtonResult c_inf INT_MAX [x0].
Proof.
  intros Hmax Hzero. split; [reflexivity|].
  unfold newton_root. destruct (Z.to_nat max_itr) as [|n] eqn:E; [lia|].
  rewrite newton_loop_S. unfold converged, zero_derivative.
  change (pd x0 coeffs 0) with (complex (coeffs 0) d_0, complex d_0 d_0). simpl.
  rewrite Hzero. reflexivity.
Qed.

(** *** [compute_newton_range] *)

(** X10.  Two workers on adjacent row intervals do the work of one worker
    on their union: for [a <= b <= c], running the rows [[b, c)] after the
    rows [[a, b)] leaves the buffers that running the rows [[a, c)] leaves. *)
Theorem compute_newton_range_adjacent (buf : buffers) (coeffs : Z -> D)
    (max_itr degree xresolution a b c : Z) (startx starty deltax deltay : D) :
  a <= b <= c ->
  cnr (cnr buf coeffs max_itr degree xresolution a b startx starty deltax deltay)
    coeffs max_itr degree xresolution b c startx starty deltax deltay =
  cnr buf coeffs max_itr degree xresolution a c startx starty deltax deltay.
Proof.
  intros Habc. apply buffers_eq. intros cl. rewrite !cnr_read.
  repeat case_decide; try reflexivity; lia.
Qed.

(** X11.  Workers do not disturb one another, whatever their intervals:
    two workers leave the same buffers in either order, and a worker run a
    second time changes nothing. *)
Theorem compute_newton_range_commute (buf : buffers) (coeffs : Z -> D)
    (max_itr degree xresolution s1 e1 s2 e2 : Z) (startx starty deltax deltay : D) :
  cnr (cnr buf coeffs max_itr degree xresolution s1 e1 startx starty deltax deltay)
    coeffs max_itr degree xresolution s2 e2 startx starty deltax deltay =
  cnr (cnr buf coeffs max_itr degree xresolution s2 e2 startx starty deltax deltay)
    coeffs max_itr degree xresolution s1 e1 startx starty deltax deltay /\
  cnr (cnr buf coeffs max_itr degree xresolution s1 e1 startx starty deltax deltay)
    coeffs max_itr degree xresolution s1 e1 startx starty deltax deltay =
  cnr buf coeffs max_itr degree xresolution s1 e1 startx starty deltax deltay.
Proof.
  split; apply buffers_eq; intros cl; rewrite !cnr_read;
    repeat case_decide; reflexivity.
Qed.

Local Abbreviation cnr_trace :=
  (compute_newton_range_trace d_0 d_tol d_inf d_of_int d_add d_mul d_lt complex c_real c_imag
     c_add c_sub c_mul c_div c_add_d c_abs c_eq).

(** X12.  The three buffers agree on the pixels that did not converge: after
    a worker has run, a pixel of its rows whose iteration count is
    [INT_MAX] holds infinity in [re] and in [im], and any other count is
    below [max_itr] (for [max_itr] an [int], and [real()], [imag()]
    returning the parts a complex number was built from). *)
Theorem compute_newton_range_sentinel (buf : buffers) (coeffs : Z -> D)
    (max_itr degree xresolution start_itr end_itr : Z) (startx starty deltax deltay : D)
    (r c : Z) :
  max_itr <= INT_MAX ->
  (forall a b, c_real (complex a b) = a) -> (forall a b, c_imag (complex a b) = b) ->
  start_itr <= r < end_itr -> 0 <= c < xresolution ->
  let b' := cnr buf coeffs max_itr degree xresolution start_itr end_itr
              startx starty deltax deltay in
  exists n,
    iterations b' !! (r, c) = Some n /\
    (n = INT_MAX -> re b' !! (r, c) = Some d_inf /\ im b' !! (r, c) = Some d_inf) /\
    (n <> INT_MAX -> 0 <= n < max_itr).
Proof.
  intros Hmax Hre Him Hr Hc. cbv zeta.
  pose proof (fun id => cnr_read coeffs max_itr degree xresolution
                          startx starty deltax deltay buf start_itr end_itr (id, (r, c))) as H.
  simpl in H.
  pose proof (H InRe) as Hr1. pose proof (H InIm) as Hi1. pose proof (H InIterations) as Hn1.
  rewrite decide_True in Hr1, Hi1, Hn1 by (split; assumption).
  apply lookup_of_read_inl in Hr1, Hi1. apply lookup_of_read_inr in Hn1.
  simpl in Hr1, Hi1, Hn1. eexists. split; [exact Hn1|].
  destruct (newton_root_sound coeffs
              (plane_point d_of_int d_add d_mul complex startx starty deltax deltay r c)
              degree max_itr d_tol Hmax) as [Hconv Hsent].
  split.
  - intros E. specialize (Hsent E). rewrite Hr1, Hi1, Hsent.
    unfold c_infinity. now rewrite Hre, Him.
  - intros E. now apply Hconv.
Qed.

(** *** [sample_newton] *)

Local Abbreviation traces_cells' :=
  (sample_newton_cells d_0 d_tol d_inf d_of_int d_add d_sub d_mul d_div d_lt complex
     c_real c_imag c_add c_sub c_mul c_div c_add_d c_abs c_eq).

(** X13.  Sampling again into the buffers a call has filled, with the same
    geometry, coefficients and [max_itr] and any number of threads, leaves
    them as they are. *)
Theorem sample_newton_again (buf : buffers) (coeffs : Z -> D)
    (max_itr degree xresolution yresolution num_threads1 num_threads2 : Z)
    (startx endx starty endy : D) :
  1 <= num_threads1 <= INT_MAX -> 1 <= num_threads2 <= INT_MAX ->
  0 <= yresolution <= INT_MAX ->
  exists out,
    sample buf coeffs max_itr num_threads1 degree xresolution yresolution
      startx endx starty endy = Some out /\
    sample (fst out) coeffs max_itr num_threads2 degree xresolution yresolution
      startx endx starty endy = Some out.
Proof.
  intros Hn1 Hn2 Hy.
  pose proof (iteration_limits_value num_threads1 yresolution Hn1 Hy) as Hinc1.
  pose proof (iteration_limits_value num_threads2 yresolution Hn2 Hy) as Hinc2.
  eexists. split; [apply sample_newton_value, Hinc1|]. cbv zeta. simpl fst.
  rewrite (sample_newton_value _ _ _ _ _ _ _ _ _ _ _ _ _ _ _ _ _ _ _ _ _ _ _ _ _ _ _ _ _ _ _
             Hinc2).
  cbv zeta. f_equal. f_equal. apply buffers_eq. intros cl.
  set (value := cell_value coeffs max_itr degree startx starty
                  (d_div (d_sub endx startx) (d_of_int xresolution))
                  (d_div (d_sub endy starty) (d_of_int yresolution))).
  destruct (decide (0 <= fst (snd cl) < yresolution /\ 0 <= snd (snd cl) < xresolution))
    as [Hin|Hout].
  - rewrite (read_do_stores_written value), (read_do_stores_written value);
      try apply traces_values; try (apply traces_cells'; [lia|lia|exact Hin]). reflexivity.
  - rewrite read_do_stores_other; [reflexivity|]. rewrite traces_cells' by lia. exact Hout.
Qed.

Lemma compute_newton_range_nothing (buf : buffers) (coeffs : Z -> D)
    (max_itr degree xresolution start_itr end_itr : Z) (startx starty deltax deltay : D) :
  end_itr <= start_itr \/ xresolution <= 0 ->
  cnr buf coeffs max_itr degree xresolution start_itr end_itr startx starty deltax deltay = buf.
Proof.
  intros H. apply buffers_eq. intros cl. rewrite cnr_read.
  case_decide; [lia|reflexivity].
Qed.

Lemma run_threads_nothing (threads : list (Z * Z)) (buf : buffers) (coeffs : Z -> D)
    (max_itr degree xresolution : Z) (startx starty deltax deltay : D) :
  (forall s e, In (s, e) threads -> e <= s \/ xresolution <= 0) ->
  fold_left
    (fun b '(start_itr, end_itr) =>
       cnr b coeffs max_itr degree xresolution start_itr end_itr startx starty deltax deltay)
    threads buf = buf.
Proof.
  induction threads as [|[s e] threads IH]; intros H; [reflexivity|].
  simpl. rewrite compute_newton_range_nothing by (apply H; now left).
  apply IH. intros s' e' Hin. apply H. now right.
Qed.

(** X14.  A call with nothing to sample returns with the buffers untouched
    and [INT_MAX] in [limit]: when [num_threads] is negative (no thread is
    launched), when [xresolution <= 0] (the threads have no column to
    visit), and when [yresolution <= 0] (every interval is empty). *)
Theorem sample_newton_empty_grid (buf : buffers) (coeffs : Z -> D)
    (max_itr degree xresolution yresolution num_threads : Z)
    (startx endx starty endy : D) :
  num_threads <> 0 -> ~ (yresolution = INT_MIN /\ num_threads = -1) ->
  num_threads < 0 \/ xresolution <= 0 \/
    (num_threads <= INT_MAX /\ INT_MIN <= yresolution <= 0) ->
  sample buf coeffs max_itr num_threads degree xresolution yresolution
    startx endx starty endy = Some (buf, INT_MAX).
Proof.
  intros Hn Hmin Hcase.
  destruct (iteration_limits_defined num_threads yresolution Hn Hmin)
    as (increments & Hinc & Hneg).
  unfold sample_newton. rewrite Hinc. do 2 f_equal.
  apply run_threads_nothing. intros s e Hin.
  destruct Hcase as [Hlt|[Hx|[Hmax Hy]]]; [|now right|].
  - rewrite (Hneg Hlt) in Hin. destruct Hin.
  - destruct (Z_lt_le_dec num_threads 0) as [Hlt|Hge];
      [rewrite (Hneg Hlt) in Hin; destruct Hin|].
    rewrite iteration_limits_value_nonpos in Hinc by lia. injection Hinc as <-.
    apply list_elem_of_In, list_elem_of_lookup in Hin as [i Hi].
    apply thread_ranges_lookup, interval_at_boundaries in Hi as [Hi [-> ->]].
    left.
    pose proof (quot_mul_ge yresolution num_threads (Z.of_nat i) ltac:(lia) ltac:(lia)
                  ltac:(lia)).
    pose proof (quot_mul_ge yresolution num_threads 1 ltac:(lia) ltac:(lia) ltac:(lia)).
    pose proof (quot_mul_ge yresolution num_threads num_threads ltac:(lia) ltac:(lia)
                  ltac:(lia)).
    destruct (Nat.ltb_spec (S i) (Z.to_nat num_threads)); nia.
Qed.

Local Abbreviation trace_cells :=
  (compute_newton_range_trace_cells d_0 d_tol d_inf d_of_int d_add d_sub d_mul d_div d_lt
     complex c_real c_imag c_add c_sub c_mul c_div c_add_d c_abs c_eq).

(** X19.  No two threads of a call store to the same element: for
    [num_threads >= 1] and [yresolution >= 0], a cell addressed by a store
    of thread [i] and by a store of thread [j] forces [i = j]. *)
Theorem sample_newton_threads_disjoint (coeffs : Z -> D)
    (max_itr degree xresolution yresolution num_threads : Z)
    (startx starty deltax deltay : D) :
  1 <= num_threads <= INT_MAX -> 0 <= yresolution <= INT_MAX ->
  exists increments,
    iteration_limits num_threads yresolution = Some increments /\
    forall i j s e s' e' cl,
      thread_ranges increments !! i = Some (s, e) ->
      thread_ranges increments !! j = Some (s', e') ->
      In cl (map store_cell
               (cnr_trace coeffs max_itr degree xresolution s e startx starty deltax deltay)) ->
      In cl (map store_cell
               (cnr_trace coeffs max_itr degree xresolution s' e' startx starty deltax deltay)) ->
      i = j.
Proof.
  intros Hn Hy. eexists. split; [apply iteration_limits_value; assumption|].
  intros i j s e s' e' cl Hi Hj [Hr _]%trace_cells [Hr' _]%trace_cells.
  apply thread_ranges_lookup, interval_at_boundaries in Hi as [Hi [-> ->]].
  apply thread_ranges_lookup, interval_at_boundaries in Hj as [Hj [-> ->]].
  assert (Hspan : 0 <= yresolution ÷ num_threads)
    by (pose proof (quot_mul_le yresolution num_threads 1); lia).
  destruct (Nat.ltb_spec (S i) (Z.to_nat num_threads)),
    (Nat.ltb_spec (S j) (Z.to_nat num_threads)); try lia; nia.
Qed.

End FurtherProperties.

(** ** The companion matrix *)

Section CompanionMatrix.

Context {D : Type}.
Variables (d_0 d_1 : D).

Implicit Types (mat : list (list D)).

(** A store inside a square matrix succeeds, keeps the matrix square and
    changes the element stored to and no other. *)
Lemma mat_store_square n mat i j v :
  square n mat -> 0 <= i < Z.of_nat n -> 0 <= j < Z.of_nat n ->
  exists mat',
    mat_store mat i j v = Some mat' /\ square n mat' /\
    forall i' j', mat_load mat' i' j' =
                  if decide (i' = i /\ j' = j) then Some v else mat_load mat i' j'.
Proof.
  intros [Hlen Hrows] Hi Hj. unfold mat_store.
  replace ((i <? 0) || (j <? 0)) with false
    by (symmetry; apply orb_false_iff; split; apply Z.ltb_ge; lia).
  destruct (lookup_lt_is_Some_2 mat (Z.to_nat i) ltac:(lia)) as [row Hrow].
  rewrite Hrow. rewrite Forall_forall in Hrows.
  pose proof (Hrows row (list_elem_of_lookup_2 _ _ _ Hrow)) as Hl.
  destruct (Nat.ltb_spec (Z.to_nat j) (length row)); [|lia].
  eexists. split; [reflexivity|]. split.
  - split; [now rewrite length_insert|].
    apply Forall_forall. intros row' Hin.
    apply list_elem_of_lookup in Hin as [k Hk].
    destruct (decide (k = Z.to_nat i)) as [->|Hne].
    + rewrite list_lookup_insert_eq in Hk by lia. injection Hk as <-.
      now rewrite length_insert.
    + rewrite list_lookup_insert_ne in Hk by congruence.
      apply Hrows. eapply list_elem_of_lookup_2, Hk.
  - intros i' j'. unfold mat_load.
    destruct ((i' <? 0) || (j' <? 0)) eqn:Eneg.
    { apply orb_true_iff in Eneg. case_decide; [|reflexivity].
      destruct Eneg as [E|E]; apply Z.ltb_lt in E; lia. }
    apply orb_false_iff in Eneg as [Ei'%Z.ltb_ge Ej'%Z.ltb_ge].
    destruct (decide (Z.to_nat i' = Z.to_nat i)) as [Ei|Ei].
    + rewrite Ei, list_lookup_insert_eq, Hrow by lia.
      destruct (decide (Z.to_nat j' = Z.to_nat j)) as [Ej|Ej].
      * rewrite Ej, list_lookup_insert_eq by lia. rewrite decide_True by lia. reflexivity.
      * rewrite list_lookup_insert_ne by congruence. rewrite decide_False by lia. reflexivity.
    + rewrite list_lookup_insert_ne by congruence. rewrite decide_False by lia. reflexivity.
Qed.

Lemma for_loop_rows (n m : nat) (row : list D) (i : Z) :
  for_loop n i (fun _ mat => mat ++ [row]) [] = replicate n row.
Proof.
  rewrite (for_loop_append (fun _ => [row])), concat_map_singleton. simpl.
  induction n as [|n IH] in |- *; [reflexivity|].
  rewrite seq_S, map_app, IH. simpl. clear. induction n; simpl; congruence.
Qed.

Lemma square_replicate (n : nat) (v : D) : square n (replicate n (replicate n v)).
Proof.
  split; [apply length_replicate|]. apply Forall_forall.
  intros row ->%elem_of_replicate_inv. apply length_replicate.
Qed.

Lemma mat_load_replicate (n : nat) (v : D) i j :
  0 <= i < Z.of_nat n -> 0 <= j < Z.of_nat n ->
  mat_load (replicate n (replicate n v)) i j = Some v.
Proof.
  intros Hi Hj. unfold mat_load.
  replace ((i <? 0) || (j <? 0)) with false
    by (symmetry; apply orb_false_iff; split; apply Z.ltb_ge; lia).
  rewrite lookup_replicate_2 by lia. apply lookup_replicate_2. lia.
Qed.

(** The second loop of [initialise_companion_matrix] after [k] turns. *)
Lemma subdiagonal_loop (n k : nat) mat :
  (k < n)%nat -> Z.of_nat n <= INT_MAX -> square n mat ->
  exists mat',
    for_loop k 0
      (fun jtr '(itr, m) =>
         (int_add itr 1,
          match m with
          | Some mat => mat_store mat itr jtr d_1
          | None => None
          end))
      (1, Some mat) = (1 + Z.of_nat k, Some mat') /\
    square n mat' /\
    forall i j, mat_load mat' i j =
                if decide (i = j + 1 /\ 0 <= j < Z.of_nat k) then Some d_1 else mat_load mat i j.
Proof.
  intros Hk Hmax Hsq. induction k as [|k IH].
  - exists mat. split; [reflexivity|]. split; [exact Hsq|].
    intros i j. case_decide; [lia|reflexivity].
  - destruct (IH ltac:(lia)) as (mat1 & Hloop & Hsq1 & Hload1).
    rewrite for_loop_snoc, Hloop.
    destruct (mat_store_square n mat1 (1 + Z.of_nat k) (0 + Z.of_nat k) d_1 Hsq1
                ltac:(lia) ltac:(lia)) as (mat2 & Hstore & Hsq2 & Hload2).
    exists mat2. rewrite Hstore. split.
    + f_equal. unfold int_add. rewrite wrap_int_id; [lia|].
      unfold int_range, INT_MIN, INT_MAX in *. lia.
    + split; [exact Hsq2|]. intros i j. rewrite Hload2, Hload1.
      repeat case_decide; try reflexivity; lia.
Qed.

(** X15.  [initialise_companion_matrix] throws [invalid_argument] for a
    degree below 2; for a larger degree it returns, without any store
    outside the matrix, a [degree] by [degree] matrix whose elements just
    below the diagonal are [1.] and whose other elements are [0.]. *)
Theorem initialise_companion_matrix_subdiagonal (degree : Z) :
  (degree < 2 ->
   initialise_companion_matrix d_0 d_1 degree =
   Thrown (invalid_argument "`degree` must be greater than or equal to 2")) /\
  (2 <= degree <= INT_MAX ->
   exists mat,
     initialise_companion_matrix d_0 d_1 degree = Returned mat /\
     square (Z.to_nat degree) mat /\
     forall i j, 0 <= i < degree -> 0 <= j < degree ->
       mat_load mat i j = Some (if i =? j + 1 then d_1 else d_0)).
Proof.
  split; intros Hd; unfold initialise_companion_matrix.
  - destruct (Z.ltb_spec degree 2); [reflexivity|lia].
  - destruct (Z.ltb_spec degree 2); [lia|].
    unfold for_range, int_sub. rewrite wrap_int_id
      by (unfold int_range, INT_MIN, INT_MAX in *; lia).
    rewrite (for_loop_rows _ 0), !Z.sub_0_r.
    destruct (subdiagonal_loop (Z.to_nat degree) (Z.to_nat (degree - 1))
                (replicate (Z.to_nat degree) (replicate (Z.to_nat degree) d_0))
                ltac:(lia) ltac:(lia) (square_replicate _ _))
      as (mat & Hloop & Hsq & Hload).
    rewrite Hloop. exists mat. split; [reflexivity|]. split; [exact Hsq|].
    intros i j Hi Hj. rewrite Hload, mat_load_replicate by lia.
    destruct (Z.eqb_spec i (j + 1)); case_decide; try reflexivity; lia.
Qed.

(** The loop of [assign_companion_matrix] after [k] turns. *)
Lemma last_column_loop (n k : nat) mat (coeffs : Z -> D) (col : Z) :
  (k <= n)%nat -> 0 <= col < Z.of_nat n -> square n mat ->
  exists mat',
    for_loop k 0
      (fun itr m =>
         match m with
         | Some mat => mat_store mat itr col (coeffs itr)
         | None => None
         end)
      (Some mat) = Some mat' /\
    square n mat' /\
    forall i j, mat_load mat' i j =
                if decide (j = col /\ 0 <= i < Z.of_nat k) then Some (coeffs i)
                else mat_load mat i j.
Proof.
  intros Hk Hcol Hsq. induction k as [|k IH].
  - exists mat. split; [reflexivity|]. split; [exact Hsq|].
    intros i j. case_decide; [lia|reflexivity].
  - destruct (IH ltac:(lia)) as (mat1 & Hloop & Hsq1 & Hload1).
    rewrite for_loop_snoc, Hloop.
    destruct (mat_store_square n mat1 (0 + Z.of_nat k) col (coeffs (0 + Z.of_nat k)) Hsq1
                ltac:(lia) ltac:(lia)) as (mat2 & Hstore & Hsq2 & Hload2).
    exists mat2. split; [exact Hstore|]. split; [exact Hsq2|].
    intros i j. rewrite Hload2, Hload1.
    repeat case_decide; try reflexivity; try lia.
    destruct H as [-> ->]. reflexivity.
Qed.

(** X16.  On a [degree] by [degree] matrix, [assign_companion_matrix] stores
    [coeffs[i]] in the last element of every row [i] and changes nothing
    else; for [degree <= 0] it leaves the matrix as it is. *)
Theorem assign_companion_matrix_last_column mat (coeffs : Z -> D) (degree : Z) :
  (degree <= 0 -> assign_companion_matrix mat coeffs degree = Some mat) /\
  (1 <= degree <= INT_MAX -> square (Z.to_nat degree) mat ->
   exists mat',
     assign_companion_matrix mat coeffs degree = Some mat' /\
     square (Z.to_nat degree) mat' /\
     forall i j, mat_load mat' i j =
                 if decide (j = degree - 1 /\ 0 <= i < degree) then Some (coeffs i)
                 else mat_load mat i j).
Proof.
  split.
  - intros Hd. unfold assign_companion_matrix, for_range.
    replace (Z.to_nat (degree - 0)) with 0%nat by lia. reflexivity.
  - intros Hd Hsq. unfold assign_companion_matrix, for_range, int_sub.
    rewrite wrap_int_id by (unfold int_range, INT_MIN, INT_MAX in *; lia).
    rewrite Z.sub_0_r.
    destruct (last_column_loop (Z.to_nat degree) (Z.to_nat degree) mat coeffs
                (degree - 1) ltac:(lia) ltac:(lia) Hsq) as (mat' & Hloop & Hsq' & Hload).
    exists mat'. split; [exact Hloop|]. split; [exact Hsq'|].
    intros i j. rewrite Hload. repeat case_decide; try reflexivity; lia.
Qed.

(** X17.  [assign_companion_matrix] applied to the matrix that
    [initialise_companion_matrix] returns gives the matrix with
    [coeffs[i]] at the end of row [i], [1.] just below the diagonal in the
    other columns, and [0.] elsewhere: the ones survive the assignment. *)
Theorem companion_matrix_entries (coeffs : Z -> D) (degree : Z) :
  2 <= degree <= INT_MAX ->
  exists mat mat',
    initialise_companion_matrix d_0 d_1 degree = Returned mat /\
    assign_companion_matrix mat coeffs degree = Some mat' /\
    square (Z.to_nat degree) mat' /\
    forall i j, 0 <= i < degree -> 0 <= j < degree ->
      mat_load mat' i j =
      Some (if j =? degree - 1 then coeffs i else if i =? j + 1 then d_1 else d_0).
Proof.
  intros Hd.
  unfold initialise_companion_matrix.
  destruct (Z.ltb_spec degree 2); [lia|].
  unfold for_range at 1 2. unfold int_sub. rewrite wrap_int_id
    by (unfold int_range, INT_MIN, INT_MAX in *; lia).
  rewrite (for_loop_rows _ 0), !Z.sub_0_r.
  destruct (subdiagonal_loop (Z.to_nat degree) (Z.to_nat (degree - 1))
              (replicate (Z.to_nat degree) (replicate (Z.to_nat degree) d_0))
              ltac:(lia) ltac:(lia) (square_replicate _ _))
    as (mat & Hloop & Hsq & Hload).
  rewrite Hloop. exists mat.
  unfold assign_companion_matrix, for_range, int_sub.
  rewrite wrap_int_id by (unfold int_range, INT_MIN, INT_MAX in *; lia).
  rewrite Z.sub_0_r.
  destruct (last_column_loop (Z.to_nat degree) (Z.to_nat degree) mat coeffs
              (degree - 1) ltac:(lia) ltac:(lia) Hsq) as (mat' & Hloop' & Hsq' & Hload').
  exists mat'. split; [reflexivity|]. split; [exact Hloop'|]. split; [exact Hsq'|].
  intros i j Hi Hj. rewrite Hload', Hload, mat_load_replicate by lia.
  destruct (Z.eqb_spec j (degree - 1)), (Z.eqb_spec i (j + 1));
    repeat case_decide; try reflexivity; lia.
Qed.

Lemma mat_store_None mat i j v : mat_load mat i j = None -> mat_store mat i j v = None.
Proof.
  unfold mat_load, mat_store. destruct ((i <? 0) || (j <? 0)); [reflexivity|].
  destruct (mat !! Z.to_nat i) as [row|]; [|reflexivity].
  intros H%lookup_ge_None. destruct (Nat.ltb_spec (Z.to_nat j) (length row)); [lia|reflexivity].
Qed.

(** A store that succeeds leaves the shape of the matrix as it is. *)
Lemma mat_store_shape mat mat' i j v i' j' :
  mat_store mat i j v = Some mat' ->
  mat_load mat' i' j' = None <-> mat_load mat i' j' = None.
Proof.
  unfold mat_store, mat_load. destruct ((i <? 0) || (j <? 0)); [discriminate|].
  destruct (mat !! Z.to_nat i) as [row|] eqn:Hrow; [|discriminate].
  destruct (Nat.ltb_spec (Z.to_nat j) (length row)); [|discriminate].
  intros [= <-]. destruct ((i' <? 0) || (j' <? 0)); [reflexivity|].
  destruct (decide (Z.to_nat i' = Z.to_nat i)) as [E|E].
  - rewrite E, list_lookup_insert_eq, Hrow by (apply lookup_lt_Some in Hrow; lia).
    rewrite !lookup_ge_None, length_insert. reflexivity.
  - rewrite list_lookup_insert_ne by congruence. reflexivity.
Qed.

(** X18.  [assign_companion_matrix] needs the last element of each of the
    rows [0 .. degree-1] to exist: when the matrix passed has no element
    [mat[i][degree-1]] for some [i < degree], a store falls outside the
    matrix and the behaviour is undefined. *)
Theorem assign_companion_matrix_out_of_bounds mat (coeffs : Z -> D) (degree i : Z) :
  degree <= INT_MAX -> 0 <= i < degree -> mat_load mat i (degree - 1) = None ->
  assign_companion_matrix mat coeffs degree = None.
Proof.
  intros Hmax Hi Hnone. unfold assign_companion_matrix, for_range, int_sub.
  rewrite wrap_int_id by (unfold int_range, INT_MIN, INT_MAX in *; lia).
  rewrite Z.sub_0_r.
  set (body := fun itr (m : option (list (list D))) =>
                 match m with
                 | Some mat => mat_store mat itr (degree - 1) (coeffs itr)
                 | None => None
                 end).
  assert (Hstuck : forall n k, for_loop n k body None = None).
  { induction n as [|n IH]; intros k; [reflexivity|]. simpl. apply IH. }
  assert (Hshape : forall n m,
             (n <= Z.to_nat i)%nat -> for_loop n 0 body (Some mat) = Some m ->
             mat_load m i (degree - 1) = None).
  { induction n as [|n IH]; intros m Hn Hm.
    - injection Hm as <-. exact Hnone.
    - rewrite for_loop_snoc in Hm.
      destruct (for_loop n 0 body (Some mat)) as [m0|] eqn:E; [|discriminate].
      simpl in Hm. apply (mat_store_shape _ _ _ _ _ i (degree - 1)) in Hm.
      apply Hm, IH; [lia|reflexivity]. }
  replace (Z.to_nat degree) with (S (Z.to_nat i) + (Z.to_nat degree - S (Z.to_nat i)))%nat
    by lia.
  assert (Hfail : for_loop (S (Z.to_nat i)) 0 body (Some mat) = None).
  { rewrite for_loop_snoc.
    destruct (for_loop (Z.to_nat i) 0 body (Some mat)) as [m|] eqn:E; [|reflexivity].
    simpl. apply mat_store_None. replace (0 + Z.of_nat (Z.to_nat i)) with i by lia.
    now apply (Hshape (Z.to_nat i)). }
  revert Hfail. generalize (S (Z.to_nat i)) as n.
  generalize (Z.to_nat degree - S (Z.to_nat i))%nat as m.
  intros m n Hfail.
  assert (Hsplit : forall a b k s, for_loop (a + b) k body s =
                                   for_loop b (k + Z.of_nat a) body (for_loop a k body s)).
  { induction a as [|a IH]; intros b k s.
    - simpl. f_equal. lia.
    - simpl. rewrite IH. f_equal. lia. }
  now rewrite Hsplit, Hfail, Hstuck.
Qed.

End CompanionMatrix.

(** ** Concrete runs of the further properties *)

Lemma newton_root_result_witness :
  50 <= INT_MAX /\
  let r := Binary64.newton_root (Binary64.array_of [-1; 0; 1]%float) (1.5, 0)%float 2 50
             Binary64.d_tol in
  0 <= itr_taken r < 50 /\
  Binary64.converged (Binary64.array_of [-1; 0; 1]%float) 2 Binary64.d_tol (root r) = true /\
  cerr r = [].
Proof.
  assert (H : 50 <= INT_MAX) by (unfold INT_MAX; lia).
  split; [exact H|].
  apply (newton_root_result Binary64.d_0 Binary64.d_inf Binary64.d_lt Binary64.complex
           Binary64.c_add Binary64.c_sub Binary64.c_mul Binary64.c_div Binary64.c_add_d
           Binary64.c_abs Binary64.c_eq
           (Binary64.array_of [-1; 0; 1]%float) (1.5, 0)%float 2 50 Binary64.d_tol H).
  vm_compute. discriminate.
Defined.

Lemma newton_root_larger_budget_witness :
  10 <= 50 /\
  Binary64.newton_root (Binary64.array_of [-1; 0; 1]%float) (1.5, 0)%float 2 50 Binary64.d_tol =
  Binary64.newton_root (Binary64.array_of [-1; 0; 1]%float) (1.5, 0)%float 2 10 Binary64.d_tol.
Proof.
  split; [lia|].
  apply (newton_root_larger_budget Binary64.d_0 Binary64.d_inf Binary64.d_lt Binary64.complex
           Binary64.c_add Binary64.c_sub Binary64.c_mul Binary64.c_div Binary64.c_add_d
           Binary64.c_abs Binary64.c_eq); [lia|].
  left. vm_compute. discriminate.
Defined.

Lemma newton_root_constant_polynomial_witness :
  1 <= 5 /\
  Binary64.newton_root (Binary64.array_of [3]%float) (1, 1)%float 0 5 Binary64.d_tol =
  NewtonResult (infinity, infinity) INT_MAX [(1, 1)%float].
Proof.
  assert (H : 1 <= 5) by lia.
  split; [exact H|].
  exact (proj2 (newton_root_constant_polynomial Binary64.d_0 Binary64.d_inf Binary64.d_lt
                  Binary64.complex Binary64.c_add Binary64.c_sub Binary64.c_mul Binary64.c_div
                  Binary64.c_add_d Binary64.c_abs Binary64.c_eq
                  (Binary64.array_of [3]%float) (1, 1)%float 5 Binary64.d_tol H eq_refl)).
Defined.

Lemma compute_newton_range_adjacent_witness :
  0 <= 1 <= 2 /\
  Binary64.compute_newton_range
    (Binary64.compute_newton_range Binary64.empty_buffers (Binary64.array_of [-1; 0; 1]%float)
       50 2 2 0 1 (-2)%float (-2)%float 2%float 2%float)
    (Binary64.array_of [-1; 0; 1]%float) 50 2 2 1 2 (-2)%float (-2)%float 2%float 2%float =
  Binary64.compute_newton_range Binary64.empty_buffers (Binary64.array_of [-1; 0; 1]%float)
    50 2 2 0 2 (-2)%float (-2)%float 2%float 2%float.
Proof.
  assert (H : 0 <= 1 <= 2) by lia.
  split; [exact H|].
  exact (compute_newton_range_adjacent Binary64.d_0 Binary64.d_tol Binary64.d_inf
           Binary64.d_of_int Binary64.d_add Binary64.d_sub Binary64.d_mul Binary64.d_div
           Binary64.d_lt Binary64.complex Binary64.c_real Binary64.c_imag
           Binary64.c_add Binary64.c_sub Binary64.c_mul Binary64.c_div Binary64.c_add_d
           Binary64.c_abs Binary64.c_eq
           Binary64.empty_buffers (Binary64.array_of [-1; 0; 1]%float)
           50 2 2 0 1 2 (-2)%float (-2)%float 2%float 2%float H).
Defined.

(** The pixel at [0], where the derivative of [x^2 - 1] is zero. *)
Lemma compute_newton_range_sentinel_witness :
  exists n,
    iterations
      (Binary64.compute_newton_range Binary64.empty_buffers
         (Binary64.array_of [-1; 0; 1]%float) 50 2 2 0 2
         (-2)%float (-2)%float 2%float 2%float) !! (1, 1) = Some n /\
    n = INT_MAX.
Proof.
  destruct (compute_newton_range_sentinel Binary64.d_0 Binary64.d_tol Binary64.d_inf
              Binary64.d_of_int Binary64.d_add Binary64.d_sub Binary64.d_mul Binary64.d_div
              Binary64.d_lt Binary64.complex Binary64.c_real Binary64.c_imag
              Binary64.c_add Binary64.c_sub Binary64.c_mul Binary64.c_div Binary64.c_add_d
              Binary64.c_abs Binary64.c_eq
              Binary64.empty_buffers (Binary64.array_of [-1; 0; 1]%float)
              50 2 2 0 2 (-2)%float (-2)%float 2%float 2%float 1 1
              ltac:(unfold INT_MAX; lia) ltac:(reflexivity) ltac:(reflexivity)
              ltac:(lia) ltac:(lia))
    as (n & Hn & _).
  exists n. split; [exact Hn|].
  vm_compute in Hn. now injection Hn as <-.
Defined.

Lemma sample_newton_again_witness :
  exists out,
    Binary64.sample_newton Binary64.empty_buffers (Binary64.array_of [-1; 0; 1]%float)
      50 1 2 2 2 (-2)%float 2%float (-2)%float 2%float = Some out /\
    Binary64.sample_newton (fst out) (Binary64.array_of [-1; 0; 1]%float)
      50 2 2 2 2 (-2)%float 2%float (-2)%float 2%float = Some out.
Proof.
  apply (sample_newton_again Binary64.d_0 Binary64.d_tol Binary64.d_inf
           Binary64.d_of_int Binary64.d_add Binary64.d_sub Binary64.d_mul Binary64.d_div
           Binary64.d_lt Binary64.complex Binary64.c_real Binary64.c_imag
           Binary64.c_add Binary64.c_sub Binary64.c_mul Binary64.c_div Binary64.c_add_d
           Binary64.c_abs Binary64.c_eq);
    unfold INT_MAX; lia.
Defined.

Lemma sample_newton_empty_grid_witness :
  Binary64.sample_newton Binary64.empty_buffers (Binary64.array_of [-1; 0; 1]%float)
    50 (-2) 2 2 2 (-2)%float 2%float (-2)%float 2%float =
  Some (Binary64.empty_buffers, INT_MAX).
Proof.
  apply (sample_newton_empty_grid Binary64.d_0 Binary64.d_tol Binary64.d_inf
           Binary64.d_of_int Binary64.d_add Binary64.d_sub Binary64.d_mul Binary64.d_div
           Binary64.d_lt Binary64.complex Binary64.c_real Binary64.c_imag
           Binary64.c_add Binary64.c_sub Binary64.c_mul Binary64.c_div Binary64.c_add_d
           Binary64.c_abs Binary64.c_eq).
  - lia.
  - intros [_ H]. lia.
  - left. lia.
Defined.

Lemma sample_newton_threads_disjoint_witness :
  exists increments,
    iteration_limits 2 3 = Some increments /\
    thread_ranges increments = [(0, 1); (1, 3)].
Proof.
  destruct (sample_newton_threads_disjoint Binary64.d_0 Binary64.d_tol Binary64.d_inf
              Binary64.d_of_int Binary64.d_add Binary64.d_sub Binary64.d_mul Binary64.d_div
              Binary64.d_lt Binary64.complex Binary64.c_real Binary64.c_imag
              Binary64.c_add Binary64.c_sub Binary64.c_mul Binary64.c_div Binary64.c_add_d
              Binary64.c_abs Binary64.c_eq
              (Binary64.array_of [-1; 0; 1]%float) 50 2 2 3 2
              (-2)%float (-2)%float 2%float 2%float
              ltac:(unfold INT_MAX; lia) ltac:(unfold INT_MAX; lia))
    as (increments & Hinc & _).
  exists increments. split; [exact Hinc|].
  vm_compute in Hinc. now injection Hinc as <-.
Defined.

(** The matrix built for degree 3 and the coefficients 5, 6, 7. *)
Example companion_matrix_3 :
  exists mat,
    Binary64.initialise_companion_matrix 3 = Returned mat /\
    Binary64.assign_companion_matrix mat (Binary64.array_of [5; 6; 7]%float) 3 =
    Some [[0; 0; 5]; [1; 0; 6]; [0; 1; 7]]%float.
Proof. eexists. split; vm_compute; reflexivity. Qed.

Lemma companion_matrix_entries_witness :
  2 <= 3 <= INT_MAX /\
  exists mat mat',
    Binary64.initialise_companion_matrix 3 = Returned mat /\
    Binary64.assign_companion_matrix mat (Binary64.array_of [5; 6; 7]%float) 3 = Some mat' /\
    mat_load mat' 2 1 = Some 1%float /\ mat_load mat' 1 2 = Some 6%float.
Proof.
  assert (H : 2 <= 3 <= INT_MAX) by (unfold INT_MAX; lia).
  split; [exact H|].
  destruct (companion_matrix_entries Binary64.d_0 Binary64.d_1
              (Binary64.array_of [5; 6; 7]%float) 3 H)
    as (mat & mat' & Hinit & Hassign & _ & Hload).
  exists mat, mat'. split; [exact Hinit|]. split; [exact Hassign|].
  split; [apply (Hload 2 1); lia|apply (Hload 1 2); lia].
Defined.

(** A 1 by 1 matrix passed with degree 2. *)
Lemma assign_companion_matrix_out_of_bounds_witness :
  Binary64.assign_companion_matrix [[0%float]] (Binary64.array_of [5; 6]%float) 2 = None.
Proof.
  apply (assign_companion_matrix_out_of_bounds [[0%float]] (Binary64.array_of [5; 6]%float) 2 0).
  - unfold INT_MAX. lia.
  - lia.
  - reflexivity.
Defined.
